(** * OsmPointsOfInterestAdapter: tag reconciliation and changeset orchestration

    A shallow embedding of [IsraelHiking.API.Services.Poi.OsmPointsOfInterestAdapter]
    (C#).  The tag helpers ([SetTagByLanguage], [GetLanguage],
    [HasHebrewCharacters], [UpdateTagsByIcon], [RemoveEmptyTags]) mutate a
    [TagsCollectionBase] in place and may throw; they are computations in a
    state-and-exception monad whose state is the collection.  The two public
    write operations ([AddPointOfInterest], [UpdatePointOfInterest]) talk to
    the OSM gateway and to the search index; they are computations over the
    state of those external services together with the log of the calls made. *)

From Stdlib Require Import List NArith ZArith Bool String Ascii Lia.
Import ListNotations.

Set Implicit Arguments.

(** ** C# strings

    A [System.String] is a sequence of UTF-16 code units; a reference of type
    [string] may also be [null]. *)

Definition char := N.
Definition str := list char.
Definition cstring := option str.

Definition lit (s : string) : str := map N_of_ascii (list_ascii_of_string s).

Fixpoint str_eqb (a b : str) : bool :=
  match a, b with
  | [], [] => true
  | x :: a', y :: b' => N.eqb x y && str_eqb a' b'
  | _, _ => false
  end.

(** [==] on two [string] references. *)
Definition cstring_eqb (a b : cstring) : bool :=
  match a, b with
  | None, None => true
  | Some x, Some y => str_eqb x y
  | _, _ => false
  end.

(** String concatenation with [+] reads a [null] operand as the empty string. *)
Definition or_empty (s : cstring) : str :=
  match s with
  | None => []
  | Some x => x
  end.

Definition in_range (lo hi c : char) : bool := N.leb lo c && N.leb c hi.

(** [Char.IsWhiteSpace]: the separators (Zs, Zl, Zp) and the control
    characters U+0009..U+000D and U+0085. *)
Definition IsWhiteSpace (c : char) : bool :=
  (in_range 0x9 0xD c || N.eqb c 0x20 || N.eqb c 0x85 || N.eqb c 0xA0
   || N.eqb c 0x1680 || in_range 0x2000 0x200A c
   || N.eqb c 0x2028 || N.eqb c 0x2029 || N.eqb c 0x202F
   || N.eqb c 0x205F || N.eqb c 0x3000)%N.

(** [string.IsNullOrWhiteSpace]. *)
Definition IsNullOrWhiteSpace (value : cstring) : bool :=
  match value with
  | None => true
  | Some s => forallb IsWhiteSpace s
  end.

(** ** Exceptions and the state-and-exception monad

    A thrown exception leaves the state as it was at the throw: what was
    mutated, or sent to a service, before the throw stays so. *)

Inductive Exception :=
| ArgumentException
| ArgumentNullException
| ArgumentOutOfRangeException
| NullReferenceException
| FormatException
| OverflowException
| ServiceException (code : nat).

Inductive Exc (A : Type) :=
| Ok (a : A)
| Raise (e : Exception).

Arguments Ok {A} a.
Arguments Raise {A} e.

Definition M (S A : Type) : Type := S -> Exc A * S.

Definition ret {S A} (a : A) : M S A := fun s => (Ok a, s).

Definition throw {S A} (e : Exception) : M S A := fun s => (Raise e, s).

Definition bind {S A B} (m : M S A) (k : A -> M S B) : M S B :=
  fun s =>
    match m s with
    | (Ok a, s') => k a s'
    | (Raise e, s') => (Raise e, s')
    end.

Definition get {S} : M S S := fun s => (Ok s, s).

Definition put {S} (s : S) : M S unit := fun _ => (Ok tt, s).

Declare Scope monad_scope.
Delimit Scope monad_scope with monad.
Notation "x <- m ;; k" := (bind m (fun x => k))
  (at level 100, m at next level, right associativity) : monad_scope.
Notation "m ;; k" := (bind m (fun _ => k))
  (at level 100, right associativity) : monad_scope.
Local Open Scope monad_scope.

(** ** Tags ([OsmSharp.Tags])

    [TagsCollection] is backed by a dictionary from key to tag: [Add] throws
    [ArgumentException] when the key is present, the indexer's setter adds or
    replaces, and [RemoveKeyValue] removes the entry of the tag's key when it
    holds the tag's value.  The entries are kept here in enumeration order,
    a new key going last. *)

Record Tag := mkTag { Key : str; Value : cstring }.

Definition TagsCollection := list Tag.

Definition Count (tags : TagsCollection) : nat := List.length tags.

Definition ElementAt (tags : TagsCollection) (i : nat) : option Tag :=
  nth_error tags i.

Definition ContainsKey (tags : TagsCollection) (key : str) : bool :=
  existsb (fun t => str_eqb (Key t) key) tags.

Fixpoint GetValue (tags : TagsCollection) (key : str) : option cstring :=
  match tags with
  | [] => None
  | t :: rest => if str_eqb (Key t) key then Some (Value t) else GetValue rest key
  end.

Fixpoint replace_value (tags : TagsCollection) (key : str) (value : cstring)
  : TagsCollection :=
  match tags with
  | [] => []
  | t :: rest =>
      if str_eqb (Key t) key then mkTag (Key t) value :: rest
      else t :: replace_value rest key value
  end.

Fixpoint remove_entry (tags : TagsCollection) (tag : Tag) : TagsCollection :=
  match tags with
  | [] => []
  | t :: rest =>
      if str_eqb (Key t) (Key tag)
      then if cstring_eqb (Value t) (Value tag) then rest else t :: rest
      else t :: remove_entry rest tag
  end.

(** [tags.Add(key, value)] and [tags.Add(new Tag(key, value))]. *)
Definition Add (key : str) (value : cstring) : M TagsCollection unit :=
  fun tags =>
    if ContainsKey tags key then (Raise ArgumentException, tags)
    else (Ok tt, tags ++ [mkTag key value]).

(** [tags[key] = value]. *)
Definition SetItem (key : str) (value : cstring) : M TagsCollection unit :=
  fun tags =>
    if ContainsKey tags key then (Ok tt, replace_value tags key value)
    else (Ok tt, tags ++ [mkTag key value]).

(** [tags.RemoveKeyValue(tag)]. *)
Definition RemoveKeyValue (tag : Tag) : M TagsCollection unit :=
  fun tags => (Ok tt, remove_entry tags tag).

(** ** The constants of [FeatureAttributes] and [Sources] *)

(** Modelled from the spec: the class [IsraelHiking.Common.FeatureAttributes]
    is not among the sources.  The spec names the base keys [name] and
    [description], and the image and url tags. *)
Module FeatureAttributes.
Definition NAME : str := lit "name".
Definition DESCRIPTION : str := lit "description".
Definition IMAGE_URL : str := lit "image".
Definition WEBSITE : str := lit "website".
Definition ICON : str := lit "icon".
End FeatureAttributes.

(** Modelled from the spec: the class [IsraelHiking.Common.Sources] is not
    among the sources; it holds the source tag of the OSM adapter. *)
Module Sources.
Definition OSM : str := lit "OSM".
End Sources.

(** ** The tag reconciler *)

Definition is_latin_letter (c : char) : bool :=
  (in_range 0x61 0x7A c || in_range 0x41 0x5A c)%N.

Definition is_hebrew (c : char) : bool := in_range 0x0591%N 0x05F4%N c.

(** [Regex.Match] of the pattern [^[^a-zA-Z]*[\u0591-\u05F4]] on [words]:
    from the start of the input, either the Hebrew class matches here, or the
    star takes one more character outside [a-zA-Z] and the match goes on. *)
Fixpoint HasHebrewCharacters (words : str) : bool :=
  match words with
  | [] => false
  | c :: rest =>
      is_hebrew c || (negb (is_latin_letter c) && HasHebrewCharacters rest)
  end.

Definition GetLanguage (value language : cstring) : cstring :=
  if IsNullOrWhiteSpace value then language
  else
    let language := Some (lit "he") in
    if negb (HasHebrewCharacters (or_empty value)) then Some (lit "en")
    else language.

Section Reconciler.

(** [_options.DefaultLanguage] *)
Variable DefaultLanguage : cstring.

Definition SetTagByLanguage (key : str) (value language : cstring)
  : M TagsCollection unit :=
  let language := GetLanguage value language in
  let qualified : M TagsCollection unit :=
    let keyWithLanguage := key ++ lit ":" ++ or_empty language in
    tags <- get ;;
    if ContainsKey tags keyWithLanguage
    then SetItem keyWithLanguage value
    else Add keyWithLanguage value in
  if cstring_eqb language DefaultLanguage then
    tags <- get ;;
    if ContainsKey tags key
    then SetItem key value
    else (Add key value ;; qualified)
  else qualified.

End Reconciler.

(** The [switch] of [UpdateTagsByIcon]: the tag each known icon adds. *)
Definition case (icon : cstring) (label : string) : bool :=
  cstring_eqb icon (Some (lit label)).

Definition icon_case (icon : cstring) : option (str * str) :=
  if case icon "icon-viewpoint" then Some (lit "tourism", lit "viewpoint")
  else if case icon "icon-tint" then Some (lit "natural", lit "spring")
  else if case icon "icon-ruins" then Some (lit "historic", lit "ruins")
  else if case icon "icon-picnic" then Some (lit "tourism", lit "picnic_site")
  else if case icon "icon-campsite" then Some (lit "tourism", lit "camp_site")
  else if case icon "icon-tree" then Some (lit "natural", lit "tree")
  else if case icon "icon-cave" then Some (lit "natural", lit "cave_entrance")
  else if case icon "icon-star" then Some (lit "tourism", lit "attraction")
  else if case icon "icon-peak" then Some (lit "natural", lit "peak")
  else None.

Definition UpdateTagsByIcon (icon : cstring) : M TagsCollection unit :=
  match icon_case icon with
  | Some (key, value) => Add key (Some value)
  | None => ret tt
  end.

(** The loop of [RemoveEmptyTags]: [n] iterations are left, the next one at
    index [n - 1]. *)
Fixpoint RemoveEmptyTags_loop (n : nat) : M TagsCollection unit :=
  match n with
  | O => ret tt
  | S i =>
      tags <- get ;;
      match ElementAt tags i with
      | None => throw ArgumentOutOfRangeException
      | Some currentTag =>
          (if IsNullOrWhiteSpace (Value currentTag)
           then RemoveKeyValue currentTag
           else ret tt) ;;
          RemoveEmptyTags_loop i
      end
  end.

Definition RemoveEmptyTags : M TagsCollection unit :=
  tags <- get ;;
  RemoveEmptyTags_loop (Count tags).

(** ** Domain objects

    References that the adapter dereferences without a test (the objects the
    gateways return, the location of a point of interest) are taken to be
    objects; the [string] fields, which the adapter does test, may be [null]. *)

(** A [double], by its IEEE 754 binary64 bit pattern: the adapter only
    copies coordinates. *)
Record double := IEEE754 { bits : N }.

Module LatLng.
Record t := make { lat : double; lng : double }.
End LatLng.

Module PointOfInterestExtended.
Record t := make {
  Id : cstring;
  Title : cstring;
  Description : cstring;
  ImageUrl : cstring;
  Url : cstring;
  Icon : cstring;
  Location : LatLng.t
}.
End PointOfInterestExtended.

Inductive OsmGeoType := Node | Way | Relation.

(** [ICompleteOsmGeo]: a [Node], a [CompleteWay] or a [CompleteRelation];
    the members of ways and relations play no part here. *)
Module CompleteOsmGeo.
Record t := make {
  Type_ : OsmGeoType;
  Id : option Z;
  Latitude : option double;
  Longitude : option double;
  Tags : TagsCollection
}.

Definition with_Tags (e : t) (tags : TagsCollection) : t :=
  make (Type_ e) (Id e) (Latitude e) (Longitude e) tags.

Definition with_Id (e : t) (id : Z) : t :=
  make (Type_ e) (Some id) (Latitude e) (Longitude e) (Tags e).
End CompleteOsmGeo.

Inductive Geometry := Point | LineString | Polygon | OtherGeometry.

Module Feature.
Record t := make {
  Geometry_ : Geometry;
  Attributes : list (str * str)
}.
End Feature.

Record TokenAndSecret := mkTokenAndSecret { Token : str; TokenSecret : str }.

Record ConfigurationData := mkConfigurationData { DefaultLanguage : cstring }.

(** [feature.Attributes[name].ToString()] *)
Fixpoint attribute (attributes : list (str * str)) (name : str) : Exc str :=
  match attributes with
  | [] => Raise NullReferenceException
  | (k, v) :: rest => if str_eqb k name then Ok v else attribute rest name
  end.

(** [long.Parse]: optional white space, an optional sign, decimal digits,
    optional white space; the value must fit 64 bits. *)
Definition is_digit (c : char) : bool := in_range 0x30%N 0x39%N c.

Definition is_parse_space (c : char) : bool :=
  in_range 0x9%N 0xD%N c || N.eqb c 0x20%N.

Fixpoint skip_spaces (s : str) : str :=
  match s with
  | c :: rest => if is_parse_space c then skip_spaces rest else s
  | [] => []
  end.

Fixpoint digits (acc : Z) (s : str) : option Z :=
  match s with
  | [] => Some acc
  | c :: rest =>
      if is_digit c then digits (10 * acc + (Z.of_N c - 48)) rest else None
  end.

Definition long_Parse (s : str) : Exc Z :=
  let trimmed := rev (skip_spaces (rev (skip_spaces s))) in
  let '(negative, body) :=
    match trimmed with
    | 0x2D%N :: rest => (true, rest)
    | 0x2B%N :: rest => (false, rest)
    | _ => (false, trimmed)
    end in
  match body with
  | [] => Raise FormatException
  | _ =>
      match digits 0 body with
      | None => Raise FormatException
      | Some v =>
          let v := if negative then (- v)%Z else v in
          if (Z.leb (- 2 ^ 63) v && Z.ltb v (2 ^ 63))%Z then Ok v
          else Raise OverflowException
      end
  end.

(** ** The external services

    [World] is the state of the two external stores.  A call on a gateway is
    a computation over it; the adapter's own state adds the log of the calls
    it has made, each with its outcome. *)

Inductive Call :=
| OsmCreateChangeset (comment : str)
| OsmCreateElement (changesetId : str) (element : CompleteOsmGeo.t)
| OsmUpdateElement (changesetId : str) (element : CompleteOsmGeo.t)
| OsmCloseChangeset (changesetId : str)
| OsmGetNode (id : cstring)
| OsmGetCompleteWay (id : cstring)
| OsmGetCompleteRelation (id : cstring)
| EsGetPointOfInterestById (id : cstring) (source : str)
| EsUpdateNamesData (feature : Feature.t).

(** [thrown] is [None] when the call returned. *)
Record Event := mkEvent { call : Call; thrown : option Exception }.

Definition outcome {A} (r : Exc A) : option Exception :=
  match r with
  | Ok _ => None
  | Raise e => Some e
  end.

Section Adapter.

Variable World : Type.

Record St := mkSt { world : World; log : list Event }.

Record IOsmGateway := {
  CreateChangeset : str -> M World str;
  CreateElement : str -> CompleteOsmGeo.t -> M World str;
  UpdateElement : str -> CompleteOsmGeo.t -> M World unit;
  CloseChangeset : str -> M World unit;
  GetNode : cstring -> M World CompleteOsmGeo.t;
  GetCompleteWay : cstring -> M World CompleteOsmGeo.t;
  GetCompleteRelation : cstring -> M World CompleteOsmGeo.t
}.

Record IElasticSearchGateway := {
  GetPointOfInterestById : cstring -> str -> M World Feature.t;
  UpdateNamesData : Feature.t -> M World unit
}.

Record IHttpGatewayFactory := {
  CreateOsmGateway : TokenAndSecret -> IOsmGateway
}.

(** The dictionaries of [Preprocess] are lists of entries, in enumeration
    order. *)
Record IOsmGeoJsonPreprocessorExecutor := {
  Preprocess : list (str * list CompleteOsmGeo.t) -> list (str * list Feature.t)
}.

Record OsmPointsOfInterestAdapter := {
  _elasticSearchGateway : IElasticSearchGateway;
  _httpGatewayFactory : IHttpGatewayFactory;
  _osmGeoJsonPreprocessorExecutor : IOsmGeoJsonPreprocessorExecutor;
  _options : ConfigurationData
}.

(** An awaited call on a gateway: it acts on the world and is logged. *)
Definition invoke {A} (c : Call) (op : M World A) : M St A :=
  fun s =>
    let (r, w) := op (world s) in
    (r, mkSt w (log s ++ [mkEvent c (outcome r)])).

(** A helper run on the tags of a local element: the collection it leaves,
    unless it throws. *)
Definition mutate (tags : TagsCollection) (helper : M TagsCollection unit)
  : M St TagsCollection :=
  fun s =>
    match helper tags with
    | (Ok _, tags') => (Ok tags', s)
    | (Raise e, _) => (Raise e, s)
    end.

Definition lift {S A} (r : Exc A) : M S A := fun s => (r, s).

Variable this : OsmPointsOfInterestAdapter.

Definition UpdateElasticSearch (osm : CompleteOsmGeo.t) (name : cstring)
  : M St unit :=
  match name with
  | None => throw ArgumentNullException
  | Some name =>
      let features :=
        Preprocess (_osmGeoJsonPreprocessorExecutor this) [(name, [osm])] in
      let feature :=
        match map snd features with
        | [] => None
        | first :: _ => hd_error first
        end in
      match feature with
      | Some feature =>
          invoke (EsUpdateNamesData feature)
                 (UpdateNamesData (_elasticSearchGateway this) feature)
      | None => ret tt
      end
  end.

(** The statements of [AddPointOfInterest] on [node.Tags]: the collection
    initializer, then the helpers. *)
Definition AddPointOfInterest_tags (pointOfInterest : PointOfInterestExtended.t)
    (language : cstring) : M TagsCollection unit :=
  let DefaultLanguage := DefaultLanguage (_options this) in
  Add FeatureAttributes.IMAGE_URL (PointOfInterestExtended.ImageUrl pointOfInterest) ;;
  Add FeatureAttributes.WEBSITE (PointOfInterestExtended.Url pointOfInterest) ;;
  SetTagByLanguage DefaultLanguage FeatureAttributes.NAME
    (PointOfInterestExtended.Title pointOfInterest) language ;;
  SetTagByLanguage DefaultLanguage FeatureAttributes.DESCRIPTION
    (PointOfInterestExtended.Description pointOfInterest) language ;;
  UpdateTagsByIcon (PointOfInterestExtended.Icon pointOfInterest) ;;
  RemoveEmptyTags.

Definition AddPointOfInterest (pointOfInterest : PointOfInterestExtended.t)
    (tokenAndSecret : TokenAndSecret) (language : cstring) : M St unit :=
  let osmGateway := CreateOsmGateway (_httpGatewayFactory this) tokenAndSecret in
  let comment := lit "Add POI interface from IHM site." in
  changesetId <- invoke (OsmCreateChangeset comment)
                        (CreateChangeset osmGateway comment) ;;
  tags <- mutate [] (AddPointOfInterest_tags pointOfInterest language) ;;
  let location := PointOfInterestExtended.Location pointOfInterest in
  let node :=
    CompleteOsmGeo.make Node None (Some (LatLng.lat location))
                        (Some (LatLng.lng location)) tags in
  id <- invoke (OsmCreateElement changesetId node)
               (CreateElement osmGateway changesetId node) ;;
  id <- lift (long_Parse id) ;;
  let node := CompleteOsmGeo.with_Id node id in
  invoke (OsmCloseChangeset changesetId) (CloseChangeset osmGateway changesetId) ;;
  UpdateElasticSearch node (PointOfInterestExtended.Title pointOfInterest).

(** The statements of [UpdatePointOfInterest] on [completeOsmGeo.Tags].
    The source passes [Description] as the value of the name tag too. *)
Definition UpdatePointOfInterest_tags (pointOfInterest : PointOfInterestExtended.t)
    (feature : Feature.t) (language : cstring) : M TagsCollection unit :=
  let DefaultLanguage := DefaultLanguage (_options this) in
  SetTagByLanguage DefaultLanguage FeatureAttributes.NAME
    (PointOfInterestExtended.Description pointOfInterest) language ;;
  SetTagByLanguage DefaultLanguage FeatureAttributes.DESCRIPTION
    (PointOfInterestExtended.Description pointOfInterest) language ;;
  SetItem FeatureAttributes.IMAGE_URL (PointOfInterestExtended.ImageUrl pointOfInterest) ;;
  SetItem FeatureAttributes.WEBSITE (PointOfInterestExtended.Url pointOfInterest) ;;
  stored <- lift (attribute (Feature.Attributes feature) FeatureAttributes.ICON) ;;
  (if negb (cstring_eqb (PointOfInterestExtended.Icon pointOfInterest) (Some stored))
   then UpdateTagsByIcon (PointOfInterestExtended.Icon pointOfInterest)
   else ret tt) ;;
  RemoveEmptyTags.

Definition UpdatePointOfInterest (pointOfInterest : PointOfInterestExtended.t)
    (tokenAndSecret : TokenAndSecret) (language : cstring) : M St unit :=
  let osmGateway := CreateOsmGateway (_httpGatewayFactory this) tokenAndSecret in
  let id := PointOfInterestExtended.Id pointOfInterest in
  feature <- invoke (EsGetPointOfInterestById id Sources.OSM)
                    (GetPointOfInterestById (_elasticSearchGateway this) id Sources.OSM) ;;
  completeOsmGeo <-
    match Feature.Geometry_ feature with
    | Point => invoke (OsmGetNode id) (GetNode osmGateway id)
    | LineString | Polygon =>
        invoke (OsmGetCompleteWay id) (GetCompleteWay osmGateway id)
    | OtherGeometry =>
        invoke (OsmGetCompleteRelation id) (GetCompleteRelation osmGateway id)
    end ;;
  tags <- mutate (CompleteOsmGeo.Tags completeOsmGeo)
                 (UpdatePointOfInterest_tags pointOfInterest feature language) ;;
  let completeOsmGeo := CompleteOsmGeo.with_Tags completeOsmGeo tags in
  let comment := lit "Update POI interface from IHM site." in
  changesetId <- invoke (OsmCreateChangeset comment)
                        (CreateChangeset osmGateway comment) ;;
  invoke (OsmUpdateElement changesetId completeOsmGeo)
         (UpdateElement osmGateway changesetId completeOsmGeo) ;;
  invoke (OsmCloseChangeset changesetId) (CloseChangeset osmGateway changesetId) ;;
  UpdateElasticSearch completeOsmGeo (PointOfInterestExtended.Title pointOfInterest).

(** A call of the adapter on a world, from an empty log. *)
Definition run {A} (operation : M St A) (w : World) : Exc A * St :=
  operation (mkSt w []).

End Adapter.

(** * The vocabulary of the properties *)

(** ** Tag sets *)

(** The invariant of the dictionary: one entry per key. *)
Definition unique_keys (tags : TagsCollection) : Prop := NoDup (map Key tags).

Definition not_blank (t : Tag) : bool := negb (IsNullOrWhiteSpace (Value t)).

Definition no_empty_value (tags : TagsCollection) : Prop :=
  Forall (fun t => IsNullOrWhiteSpace (Value t) = false) tags.

(** The value left under a key once the empty tags are removed. *)
Definition stripped (found : option cstring) : option cstring :=
  match found with
  | Some v => if IsNullOrWhiteSpace v then None else Some v
  | None => None
  end.

(** The keys of the icon vocabulary. *)
Definition category_key (k : str) : Prop :=
  k = lit "tourism" \/ k = lit "natural" \/ k = lit "historic".

(** ** Language resolution, in the words of the specification

    A value is blank when it is empty (or absent) or holds white space only;
    it matches the anchored pattern when a character of the Hebrew range
    U+0591..U+05F4 comes after characters that are not Latin letters. *)

Definition blank (value : cstring) : Prop :=
  match value with
  | None => True
  | Some s => Forall (fun c => IsWhiteSpace c = true) s
  end.

Definition HebrewRange (c : char) : Prop := (0x0591 <= c <= 0x05F4)%N.

Definition LatinLetter (c : char) : Prop :=
  (0x61 <= c <= 0x7A)%N \/ (0x41 <= c <= 0x5A)%N.

Definition anchored_hebrew (value : str) : Prop :=
  exists leading c rest,
    value = leading ++ c :: rest /\
    Forall (fun x => ~ LatinLetter x) leading /\
    HebrewRange c.

(** ** Reading the log *)

Definition ok (c : Call) : Event := mkEvent c None.

Definition ko (c : Call) (e : Exception) : Event := mkEvent c (Some e).

Definition is_open (c : Call) : bool :=
  match c with OsmCreateChangeset _ => true | _ => false end.

Definition is_mutation (c : Call) : bool :=
  match c with
  | OsmCreateElement _ _ | OsmUpdateElement _ _ => true
  | _ => false
  end.

Definition is_close (c : Call) : bool :=
  match c with OsmCloseChangeset _ => true | _ => false end.

Definition is_upsert (c : Call) : bool :=
  match c with EsUpdateNamesData _ => true | _ => false end.

Definition returned (e : Event) : bool :=
  match thrown e with None => true | Some _ => false end.

(** Some call of the kind was made. *)
Definition attempted (kind : Call -> bool) (events : list Event) : bool :=
  existsb (fun e => kind (call e)) events.

(** Some call of the kind was made and returned. *)
Definition succeeded (kind : Call -> bool) (events : list Event) : bool :=
  existsb (fun e => kind (call e) && returned e) events.

(** Some call of the kind was made and threw [e]. *)
Definition failed_with (kind : Call -> bool) (e : Exception) (events : list Event) : Prop :=
  exists ev, In ev events /\ kind (call ev) = true /\ thrown ev = Some e.

(** A call of kind [first] returned, and later a call of kind [second] was made. *)
Definition succeeded_before (first second : Call -> bool) (events : list Event) : Prop :=
  exists l1 e1 l2 e2 l3,
    events = l1 ++ e1 :: l2 ++ e2 :: l3 /\
    first (call e1) = true /\ returned e1 = true /\ second (call e2) = true.

(** The element handed to the OSM gateway by a mutation. *)
Definition mutated_element (c : Call) : option CompleteOsmGeo.t :=
  match c with
  | OsmCreateElement _ element | OsmUpdateElement _ element => Some element
  | _ => None
  end.

(** The tags of the elements handed to the gateway, in the order of the calls. *)
Definition handed_tags (events : list Event) : list TagsCollection :=
  flat_map (fun ev =>
              match mutated_element (call ev) with
              | Some element => [CompleteOsmGeo.Tags element]
              | None => []
              end) events.

(** The call by which [UpdatePointOfInterest] fetches the element, and the
    gateway operation behind it. *)
Definition fetch_call (geometry : Geometry) (id : cstring) : Call :=
  match geometry with
  | Point => OsmGetNode id
  | LineString | Polygon => OsmGetCompleteWay id
  | OtherGeometry => OsmGetCompleteRelation id
  end.

Definition fetch_operation {World} (osmGateway : IOsmGateway World)
    (geometry : Geometry) : cstring -> M World CompleteOsmGeo.t :=
  match geometry with
  | Point => GetNode osmGateway
  | LineString | Polygon => GetCompleteWay osmGateway
  | OtherGeometry => GetCompleteRelation osmGateway
  end.

(** The collections that come out of the OSM gateway are dictionaries. *)
Definition fetches_unique_keys {World} (osmGateway : IOsmGateway World) : Prop :=
  forall geometry id w element w',
    fetch_operation osmGateway geometry id w = (Ok element, w') ->
    unique_keys (CompleteOsmGeo.Tags element).

(** ** The properties of a log *)





(** An upsert comes after a close that returned, and after no failure of the
    opening, the mutation or the close. *)
Definition upsert_discipline (events : list Event) : Prop :=
  (attempted is_upsert events = true ->
   succeeded_before is_close is_upsert events) /\
  (forall e,
      failed_with is_open e events \/
      failed_with is_mutation e events \/
      failed_with is_close e events ->
      attempted is_upsert events = false).

(** Every element handed to the OSM gateway for a mutation is free of
    empty-valued tags. *)
Definition persists_no_empty_value (events : list Event) : Prop :=
  forall ev element,
    In ev events -> mutated_element (call ev) = Some element ->
    no_empty_value (CompleteOsmGeo.Tags element).

(** * A scripted world for concrete runs

    The world counts the changesets that are open; the script says which
    calls fail. *)

Record Script := mkScript {
  open_fails : bool;
  mutation_fails : bool;
  close_fails : bool
}.

Definition no_faults : Script := mkScript false false false.


Definition failing_close : Script := mkScript false false true.

Definition scripted_osm (script : Script) (stored : CompleteOsmGeo.t)
  : IOsmGateway nat :=
  {| CreateChangeset := fun _ w =>
       if open_fails script then (Raise (ServiceException 401), w)
       else (Ok (lit "7"), S w);
     CreateElement := fun _ _ w =>
       if mutation_fails script then (Raise (ServiceException 409), w)
       else (Ok (lit "42"), w);
     UpdateElement := fun _ _ w =>
       if mutation_fails script then (Raise (ServiceException 409), w)
       else (Ok tt, w);
     CloseChangeset := fun _ w =>
       if close_fails script then (Raise (ServiceException 500), w)
       else (Ok tt, pred w);
     GetNode := fun _ => ret stored;
     GetCompleteWay := fun _ => ret stored;
     GetCompleteRelation := fun _ => ret stored |}.

Definition scripted_index (feature : Feature.t) : IElasticSearchGateway nat :=
  {| GetPointOfInterestById := fun _ _ => ret feature;
     UpdateNamesData := fun _ => ret tt |}.

(** A preprocessor that derives one point feature per element. *)
Definition point_features : IOsmGeoJsonPreprocessorExecutor :=
  {| Preprocess := fun entries =>
       map (fun entry =>
              (fst entry, map (fun _ => Feature.make Point []) (snd entry)))
           entries |}.

Definition scripted_adapter (script : Script) (stored : CompleteOsmGeo.t)
    (feature : Feature.t) (default : cstring) : OsmPointsOfInterestAdapter nat :=
  {| _elasticSearchGateway := scripted_index feature;
     _httpGatewayFactory := {| CreateOsmGateway := fun _ => scripted_osm script stored |};
     _osmGeoJsonPreprocessorExecutor := point_features;
     _options := mkConfigurationData default |}.

Definition some_token : TokenAndSecret := mkTokenAndSecret (lit "token") (lit "secret").

Definition he : cstring := Some (lit "he").

Definition en : cstring := Some (lit "en").

(** The title of the specification's example, in Hebrew script, and its
    location (32.0, 34.8). *)
Definition kinneret : str := [0x5D4; 0x5DB; 0x5E0; 0x5E8; 0x5EA]%N.

Definition kinneret_location : LatLng.t :=
  LatLng.make (IEEE754 0x4040000000000000) (IEEE754 0x4041666666666666).

Definition kinneret_poi : PointOfInterestExtended.t :=
  PointOfInterestExtended.make None (Some kinneret) None None None None
                               kinneret_location.

Definition peak_poi : PointOfInterestExtended.t :=
  PointOfInterestExtended.make (Some (lit "42")) (Some (lit "Mount Meron")) None None None
                               (Some (lit "icon-peak")) kinneret_location.

Definition tabor_poi : PointOfInterestExtended.t :=
  PointOfInterestExtended.make (Some (lit "42")) (Some (lit "Mount Tabor"))
                               (Some (lit "A round hill")) None None
                               (Some (lit "icon-star")) kinneret_location.

(** A point of interest with another title. *)
Definition retitled (poi : PointOfInterestExtended.t) (title : cstring)
  : PointOfInterestExtended.t :=
  PointOfInterestExtended.make
    (PointOfInterestExtended.Id poi) title
    (PointOfInterestExtended.Description poi)
    (PointOfInterestExtended.ImageUrl poi)
    (PointOfInterestExtended.Url poi)
    (PointOfInterestExtended.Icon poi)
    (PointOfInterestExtended.Location poi).

(** Stored features, by their icon. *)
Definition plain_feature : Feature.t :=
  Feature.make Point [(FeatureAttributes.ICON, lit "icon-star")].

Definition peak_feature : Feature.t :=
  Feature.make Point [(FeatureAttributes.ICON, lit "icon-peak")].

Definition viewpoint_feature : Feature.t :=
  Feature.make Point [(FeatureAttributes.ICON, lit "icon-viewpoint")].

Definition tree_feature : Feature.t :=
  Feature.make Point [(FeatureAttributes.ICON, lit "icon-tree")].

(** Stored tag sets and elements. *)
Definition meron_tags : TagsCollection :=
  [mkTag (lit "name") (Some (lit "Mount Meron"))].

Definition viewpoint_tags : TagsCollection :=
  [mkTag (lit "tourism") (Some (lit "viewpoint"))].

Definition empty_node : CompleteOsmGeo.t :=
  CompleteOsmGeo.make Node (Some 42%Z) None None [].

Definition meron_node : CompleteOsmGeo.t :=
  CompleteOsmGeo.make Node (Some 42%Z) None None meron_tags.

Definition old_name_node : CompleteOsmGeo.t :=
  CompleteOsmGeo.make Node (Some 42%Z) None None
                      [mkTag (lit "name") (Some (lit "Old name"))].

Definition blank_note_node : CompleteOsmGeo.t :=
  CompleteOsmGeo.make Node (Some 42%Z) None None
    [mkTag (lit "name") (Some (lit "Old name")); mkTag (lit "note") (Some (lit "  "))].

Definition tree_node : CompleteOsmGeo.t :=
  CompleteOsmGeo.make Node (Some 42%Z) None None
                      [mkTag (lit "natural") (Some (lit "tree"))].

Definition he_adapter : OsmPointsOfInterestAdapter nat :=
  scripted_adapter no_faults empty_node plain_feature he.

Definition en_adapter : OsmPointsOfInterestAdapter nat :=
  scripted_adapter no_faults old_name_node plain_feature en.

(** * The vocabulary of a run *)

(** The kinds of calls the adapter makes, and the order in which create and
    update make them. *)
Inductive CallKind := Lookup | Fetch | Open | Mutate | Close | Upsert.

Definition kind_of (c : Call) : CallKind :=
  match c with
  | EsGetPointOfInterestById _ _ => Lookup
  | OsmGetNode _ | OsmGetCompleteWay _ | OsmGetCompleteRelation _ => Fetch
  | OsmCreateChangeset _ => Open
  | OsmCreateElement _ _ | OsmUpdateElement _ _ => Mutate
  | OsmCloseChangeset _ => Close
  | EsUpdateNamesData _ => Upsert
  end.

(** The kinds of the calls of a log, in order. *)
Definition kinds (events : list Event) : list CallKind :=
  map (fun ev => kind_of (call ev)) events.

Definition create_protocol : list CallKind := [Open; Mutate; Close; Upsert].

Definition update_protocol : list CallKind :=
  [Lookup; Fetch; Open; Mutate; Close; Upsert].

Definition prefix_of {A} (l full : list A) : Prop := exists rest, l ++ rest = full.

(** Every call but the last one returned. *)
Fixpoint all_but_last_returned (events : list Event) : bool :=
  match events with
  | [] => true
  | [_] => true
  | ev :: rest => returned ev && all_but_last_returned rest
  end.

(** The exception of the last call, if it threw. *)
Definition last_thrown (events : list Event) : option Exception :=
  match rev events with
  | ev :: _ => thrown ev
  | [] => None
  end.

(** The changeset a call works in. *)
Definition changeset_of (c : Call) : option str :=
  match c with
  | OsmCreateElement changesetId _ | OsmUpdateElement changesetId _
  | OsmCloseChangeset changesetId => Some changesetId
  | _ => None
  end.

(** The tags of the node that create builds, and the node. *)
Definition created_tags {World} (this : OsmPointsOfInterestAdapter World)
    (poi : PointOfInterestExtended.t) (language : cstring) : TagsCollection :=
  snd (AddPointOfInterest_tags this poi language []).

Definition created_node {World} (this : OsmPointsOfInterestAdapter World)
    (poi : PointOfInterestExtended.t) (language : cstring) : CompleteOsmGeo.t :=
  let location := PointOfInterestExtended.Location poi in
  CompleteOsmGeo.make Node None (Some (LatLng.lat location))
                      (Some (LatLng.lng location)) (created_tags this poi language).

(** The feature that [UpdateElasticSearch] derives for an element: the first
    one of the first entry that the preprocessor returns. *)
Definition derived_feature {World} (this : OsmPointsOfInterestAdapter World)
    (osm : CompleteOsmGeo.t) (name : str) : option Feature.t :=
  match map snd (Preprocess (_osmGeoJsonPreprocessorExecutor this) [(name, [osm])]) with
  | [] => None
  | first :: _ => hd_error first
  end.

(** The first character of a value that is a Latin letter or a character of
    the Hebrew range. *)
Definition first_letter (words : str) : option char :=
  find (fun c => is_hebrew c || is_latin_letter c) words.

(** A gateway that answers a create with an id that is not a number. *)
Definition textual_id_osm : IOsmGateway nat :=
  {| CreateChangeset := CreateChangeset (scripted_osm no_faults empty_node);
     CreateElement := fun _ _ w => (Ok (lit "node/42"), w);
     UpdateElement := UpdateElement (scripted_osm no_faults empty_node);
     CloseChangeset := CloseChangeset (scripted_osm no_faults empty_node);
     GetNode := GetNode (scripted_osm no_faults empty_node);
     GetCompleteWay := GetCompleteWay (scripted_osm no_faults empty_node);
     GetCompleteRelation := GetCompleteRelation (scripted_osm no_faults empty_node) |}.

Definition textual_id_adapter : OsmPointsOfInterestAdapter nat :=
  {| _elasticSearchGateway := scripted_index plain_feature;
     _httpGatewayFactory := {| CreateOsmGateway := fun _ => textual_id_osm |};
     _osmGeoJsonPreprocessorExecutor := point_features;
     _options := mkConfigurationData he |}.

(** A preprocessor that derives nothing. *)
Definition no_features : IOsmGeoJsonPreprocessorExecutor :=
  {| Preprocess := fun _ => [] |}.

Definition silent_adapter : OsmPointsOfInterestAdapter nat :=
  {| _elasticSearchGateway := scripted_index plain_feature;
     _httpGatewayFactory :=
       {| CreateOsmGateway := fun _ => scripted_osm no_faults meron_node |};
     _osmGeoJsonPreprocessorExecutor := no_features;
     _options := mkConfigurationData he |}.

(** A point of interest with no title. *)
Definition untitled_poi : PointOfInterestExtended.t :=
  PointOfInterestExtended.make (Some (lit "42")) None (Some (lit "A spring")) None None
                               (Some (lit "icon-tint")) kinneret_location.

(** The keys that the tag statements of an update may write, for the icon of
    the submitted point. *)
Definition written_key (icon : cstring) (k : str) : Prop :=
  k = FeatureAttributes.NAME \/ k = FeatureAttributes.DESCRIPTION \/
  k = FeatureAttributes.IMAGE_URL \/ k = FeatureAttributes.WEBSITE \/
  (exists suffix, k = FeatureAttributes.NAME ++ lit ":" ++ suffix) \/
  (exists suffix, k = FeatureAttributes.DESCRIPTION ++ lit ":" ++ suffix) \/
  (exists value, icon_case icon = Some (k, value)).

(** The language-qualified key under which a text is written. *)
Definition qualified_key (key : str) (value language : cstring) : str :=
  key ++ lit ":" ++ or_empty (GetLanguage value language).

(** What the tag statements of create write under a key, before the empty
    tags are removed: image and website, then the title, then the
    description, then the tag of the icon. *)
Definition written_by_create (default : cstring) (poi : PointOfInterestExtended.t)
    (language : cstring) (k : str) : option cstring :=
  let title := PointOfInterestExtended.Title poi in
  let description := PointOfInterestExtended.Description poi in
  let text key value below :=
    if str_eqb (qualified_key key value language) k then Some value
    else if cstring_eqb (GetLanguage value language) default && str_eqb key k
         then Some value
         else below in
  let links :=
    if str_eqb FeatureAttributes.IMAGE_URL k
    then Some (PointOfInterestExtended.ImageUrl poi)
    else if str_eqb FeatureAttributes.WEBSITE k
         then Some (PointOfInterestExtended.Url poi)
         else None in
  let texts :=
    text FeatureAttributes.DESCRIPTION description
         (text FeatureAttributes.NAME title links) in
  match icon_case (PointOfInterestExtended.Icon poi) with
  | Some (key, value) => if str_eqb key k then Some (Some value) else texts
  | None => texts
  end.

(** A fetched peak with an image and an elevation. *)
Definition pictured_meron : TagsCollection :=
  [mkTag (lit "name") (Some (lit "Mount Meron"));
   mkTag (lit "image") (Some (lit "http://old.example/meron.jpg"));
   mkTag (lit "ele") (Some (lit "1208"))].

(** * The definitions at work *)

Example IsNullOrWhiteSpace_null : IsNullOrWhiteSpace None = true.
Proof. reflexivity. Qed.

Example IsNullOrWhiteSpace_tab_and_space :
  IsNullOrWhiteSpace (Some [0x9; 0x20; 0xA0]%N) = true.
Proof. reflexivity. Qed.

Example HasHebrewCharacters_after_digits :
  HasHebrewCharacters (lit "12 " ++ kinneret) = true.
Proof. reflexivity. Qed.

Example HasHebrewCharacters_after_latin :
  HasHebrewCharacters (lit "a" ++ kinneret) = false.
Proof. reflexivity. Qed.

Example long_Parse_signed : long_Parse (lit " -42 ") = Ok (-42)%Z.
Proof. reflexivity. Qed.

Example long_Parse_not_a_number : long_Parse (lit "n42") = Raise FormatException.
Proof. reflexivity. Qed.

Example long_Parse_too_large :
  long_Parse (lit "9223372036854775808") = Raise OverflowException.
Proof. reflexivity. Qed.

Example RemoveEmptyTags_blank_note :
  RemoveEmptyTags (CompleteOsmGeo.Tags blank_note_node)
  = (Ok tt, [mkTag (lit "name") (Some (lit "Old name"))]).
Proof. reflexivity. Qed.

Example AddPointOfInterest_calls :
  map call (log (snd (run (AddPointOfInterest he_adapter kinneret_poi some_token en) 0)))
  = [OsmCreateChangeset (lit "Add POI interface from IHM site.");
     OsmCreateElement (lit "7")
       (CompleteOsmGeo.make Node None
          (Some (LatLng.lat kinneret_location)) (Some (LatLng.lng kinneret_location))
          [mkTag (lit "name") (Some kinneret); mkTag (lit "name:he") (Some kinneret)]);
     OsmCloseChangeset (lit "7");
     EsUpdateNamesData (Feature.make Point [])].
Proof. reflexivity. Qed.

Example UpdatePointOfInterest_way_is_fetched_whole :
  map call (log (snd (run (UpdatePointOfInterest
                             (scripted_adapter no_faults meron_node
                                (Feature.make LineString
                                   [(FeatureAttributes.ICON, lit "icon-peak")]) he)
                             peak_poi some_token en) 0)))
  = [EsGetPointOfInterestById (Some (lit "42")) Sources.OSM;
     OsmGetCompleteWay (Some (lit "42"));
     OsmCreateChangeset (lit "Update POI interface from IHM site.");
     OsmUpdateElement (lit "7") meron_node;
     OsmCloseChangeset (lit "7");
     EsUpdateNamesData (Feature.make Point [])].
Proof. reflexivity. Qed.

(** * Facts about strings *)

Lemma str_eqb_spec (a b : str) : reflect (a = b) (str_eqb a b).
Proof.
  revert b; induction a as [|x a IH]; intros [|y b]; simpl;
    try (constructor; congruence).
  destruct (N.eqb_spec x y) as [->|Hxy]; simpl.
  - destruct (IH b) as [->|Hab]; constructor; congruence.
  - constructor; congruence.
Qed.

Lemma str_eqb_refl (a : str) : str_eqb a a = true.
Proof. destruct (str_eqb_spec a a); congruence. Qed.

Lemma str_eqb_eq (a b : str) : str_eqb a b = true <-> a = b.
Proof. destruct (str_eqb_spec a b); split; congruence. Qed.

Lemma str_eqb_neq (a b : str) : str_eqb a b = false <-> a <> b.
Proof. destruct (str_eqb_spec a b); split; congruence. Qed.

Lemma cstring_eqb_spec (a b : cstring) : reflect (a = b) (cstring_eqb a b).
Proof.
  destruct a as [x|], b as [y|]; simpl; try (constructor; congruence).
  destruct (str_eqb_spec x y); constructor; congruence.
Qed.

Lemma in_range_spec (lo hi c : char) :
  in_range lo hi c = true <-> (lo <= c <= hi)%N.
Proof.
  unfold in_range. rewrite andb_true_iff, !N.leb_le. tauto.
Qed.

(** * Facts about the tags collection *)

Lemma ContainsKey_In (tags : TagsCollection) (key : str) :
  ContainsKey tags key = true <-> In key (map Key tags).
Proof.
  unfold ContainsKey. rewrite existsb_exists, in_map_iff.
  split; intros (t & H1 & H2).
  - exists t. apply str_eqb_eq in H2. auto.
  - exists t. rewrite str_eqb_eq. auto.
Qed.

Lemma ContainsKey_false (tags : TagsCollection) (key : str) :
  ContainsKey tags key = false <-> ~ In key (map Key tags).
Proof.
  rewrite <- ContainsKey_In. destruct (ContainsKey tags key); split; congruence.
Qed.

Lemma ContainsKey_app (a b : TagsCollection) (key : str) :
  ContainsKey (a ++ b) key = ContainsKey a key || ContainsKey b key.
Proof. unfold ContainsKey. apply existsb_app. Qed.

Lemma GetValue_ContainsKey (tags : TagsCollection) (key : str) :
  ContainsKey tags key = false <-> GetValue tags key = None.
Proof.
  induction tags as [|t rest IH]; simpl; [tauto|].
  destruct (str_eqb (Key t) key); simpl; [split; discriminate | exact IH].
Qed.

Lemma GetValue_app (a b : TagsCollection) (key : str) :
  GetValue (a ++ b) key =
  match GetValue a key with
  | Some v => Some v
  | None => GetValue b key
  end.
Proof.
  induction a as [|t a IH]; simpl; [reflexivity|].
  destruct (str_eqb (Key t) key); auto.
Qed.

Lemma GetValue_In (tags : TagsCollection) (t : Tag) :
  unique_keys tags -> In t tags -> GetValue tags (Key t) = Some (Value t).
Proof.
  unfold unique_keys.
  induction tags as [|x rest IH]; simpl; intros Hnd Hin; [contradiction|].
  inversion Hnd as [|? ? Hx Hrest]; subst.
  destruct Hin as [->|Hin].
  - now rewrite str_eqb_refl.
  - destruct (str_eqb_spec (Key x) (Key t)) as [E|_]; [|auto].
    exfalso. apply Hx. rewrite E. now apply in_map.
Qed.

Lemma In_GetValue (tags : TagsCollection) (key : str) (v : cstring) :
  GetValue tags key = Some v -> In (mkTag key v) tags.
Proof.
  induction tags as [|[k w] rest IH]; simpl; [discriminate|].
  destruct (str_eqb_spec k key) as [->|_].
  - intros [= ->]. now left.
  - intros H. right. auto.
Qed.

Lemma replace_value_keys (tags : TagsCollection) (key : str) (value : cstring) :
  map Key (replace_value tags key value) = map Key tags.
Proof.
  induction tags as [|t rest IH]; simpl; [reflexivity|].
  destruct (str_eqb (Key t) key); simpl; congruence.
Qed.

Lemma GetValue_replace_value_same tags key value :
  ContainsKey tags key = true ->
  GetValue (replace_value tags key value) key = Some value.
Proof.
  induction tags as [|t rest IH]; simpl; [discriminate|].
  destruct (str_eqb (Key t) key) eqn:E; simpl.
  - intros _. now rewrite E.
  - rewrite E. exact IH.
Qed.

Lemma GetValue_replace_value_other tags key value key' :
  key' <> key ->
  GetValue (replace_value tags key value) key' = GetValue tags key'.
Proof.
  intros Hne. induction tags as [|t rest IH]; simpl; [reflexivity|].
  destruct (str_eqb_spec (Key t) key) as [E|E]; simpl.
  - destruct (str_eqb_spec (Key t) key'); [congruence | reflexivity].
  - now rewrite IH.
Qed.

Lemma remove_entry_absent (tags : TagsCollection) (tag : Tag) :
  ~ In (Key tag) (map Key tags) -> remove_entry tags tag = tags.
Proof.
  induction tags as [|t rest IH]; simpl; intros H; [reflexivity|].
  destruct (str_eqb_spec (Key t) (Key tag)) as [E|_]; [tauto|].
  f_equal. apply IH. tauto.
Qed.

Lemma remove_entry_middle (before after : TagsCollection) (tag : Tag) :
  ~ In (Key tag) (map Key before) ->
  remove_entry (before ++ tag :: after) tag = before ++ after.
Proof.
  induction before as [|t rest IH]; simpl; intros H.
  - rewrite str_eqb_refl.
    destruct (cstring_eqb_spec (Value tag) (Value tag)); congruence.
  - destruct (str_eqb_spec (Key t) (Key tag)) as [E|_]; [tauto|].
    f_equal. apply IH. tauto.
Qed.

Lemma unique_keys_app_inv (a b : TagsCollection) :
  unique_keys (a ++ b) -> unique_keys a /\ unique_keys b.
Proof.
  unfold unique_keys. rewrite map_app. intros H. split.
  - eapply NoDup_app_remove_r; eauto.
  - eapply NoDup_app_remove_l; eauto.
Qed.

Lemma unique_keys_snoc (tags : TagsCollection) (key : str) (value : cstring) :
  unique_keys tags -> ContainsKey tags key = false ->
  unique_keys (tags ++ [mkTag key value]).
Proof.
  unfold unique_keys. intros Hnd Hc. apply ContainsKey_false in Hc.
  rewrite map_app. simpl.
  apply NoDup_rev in Hnd.
  rewrite <- (rev_involutive (map Key tags ++ [key])).
  apply NoDup_rev. rewrite rev_app_distr. simpl.
  constructor; [|exact Hnd].
  now rewrite <- in_rev.
Qed.

Lemma unique_keys_filter (f : Tag -> bool) (tags : TagsCollection) :
  unique_keys tags -> unique_keys (filter f tags).
Proof.
  unfold unique_keys.
  induction tags as [|t rest IH]; simpl; intros H; [constructor|].
  inversion H as [|? ? Hx Hrest]; subst.
  destruct (f t); simpl; [|auto].
  constructor; [|auto].
  intros Hin. apply Hx. apply in_map_iff in Hin as (u & <- & Hu).
  apply in_map. apply filter_In in Hu. tauto.
Qed.

(** ** The helpers keep one entry per key *)

Lemma Add_unique_keys key value tags r tags' :
  Add key value tags = (r, tags') -> unique_keys tags -> unique_keys tags'.
Proof.
  unfold Add. destruct (ContainsKey tags key) eqn:E; intros [= <- <-] H; auto.
  now apply unique_keys_snoc.
Qed.

Lemma SetItem_unique_keys key value tags r tags' :
  SetItem key value tags = (r, tags') -> unique_keys tags -> unique_keys tags'.
Proof.
  unfold SetItem. destruct (ContainsKey tags key) eqn:E; intros [= <- <-] H.
  - unfold unique_keys. now rewrite replace_value_keys.
  - now apply unique_keys_snoc.
Qed.

Lemma SetItem_Ok key value tags : fst (SetItem key value tags) = Ok tt.
Proof. unfold SetItem. now destruct (ContainsKey tags key). Qed.

Lemma SetTagByLanguage_unique_keys default key value language tags r tags' :
  SetTagByLanguage default key value language tags = (r, tags') ->
  unique_keys tags -> unique_keys tags'.
Proof.
  unfold SetTagByLanguage, bind, get.
  set (kl := key ++ lit ":" ++ or_empty (GetLanguage value language)).
  intros H Hu.
  destruct (cstring_eqb (GetLanguage value language) default).
  - destruct (ContainsKey tags key) eqn:E1.
    + eapply SetItem_unique_keys; eauto.
    + destruct (Add key value tags) as [[[]|e] t1] eqn:E2.
      * assert (Hu1 : unique_keys t1) by (eapply Add_unique_keys; eauto).
        destruct (ContainsKey t1 kl).
        -- eapply SetItem_unique_keys; eauto.
        -- eapply Add_unique_keys; eauto.
      * injection H as <- <-. eapply Add_unique_keys; eauto.
  - destruct (ContainsKey tags kl).
    + eapply SetItem_unique_keys; eauto.
    + eapply Add_unique_keys; eauto.
Qed.

(** Every [Add] of [SetTagByLanguage] is guarded: it never throws. *)
Lemma SetTagByLanguage_Ok default key value language tags :
  fst (SetTagByLanguage default key value language tags) = Ok tt.
Proof.
  unfold SetTagByLanguage, bind, get.
  set (kl := key ++ lit ":" ++ or_empty (GetLanguage value language)).
  assert (guarded : forall k t, ContainsKey t k = false ->
            Add k value t = (Ok tt, t ++ [mkTag k value])).
  { intros k t E. unfold Add. now rewrite E. }
  destruct (cstring_eqb (GetLanguage value language) default).
  - destruct (ContainsKey tags key) eqn:E1; [apply SetItem_Ok|].
    rewrite (guarded _ _ E1).
    destruct (ContainsKey (tags ++ [mkTag key value]) kl) eqn:E2;
      [apply SetItem_Ok | now rewrite (guarded _ _ E2)].
  - destruct (ContainsKey tags kl) eqn:E2;
      [apply SetItem_Ok | now rewrite (guarded _ _ E2)].
Qed.

Lemma UpdateTagsByIcon_unique_keys icon tags r tags' :
  UpdateTagsByIcon icon tags = (r, tags') -> unique_keys tags -> unique_keys tags'.
Proof.
  unfold UpdateTagsByIcon. destruct (icon_case icon) as [[k v]|].
  - apply Add_unique_keys.
  - now intros [= <- <-].
Qed.

(** ** The loop of [RemoveEmptyTags] *)

Lemma ElementAt_middle (before after : TagsCollection) (t : Tag) :
  ElementAt (before ++ t :: after) (List.length before) = Some t.
Proof.
  unfold ElementAt. rewrite nth_error_app2 by lia.
  now rewrite Nat.sub_diag.
Qed.

Lemma RemoveEmptyTags_loop_filter (before after : TagsCollection) :
  unique_keys (before ++ after) ->
  RemoveEmptyTags_loop (List.length before) (before ++ after)
  = (Ok tt, filter not_blank before ++ after).
Proof.
  revert after. induction before as [|t before IH] using rev_ind; intros after Hu.
  - reflexivity.
  - rewrite <- app_assoc in *. simpl app in *.
    rewrite length_app, Nat.add_comm. simpl.
    unfold bind at 1, get at 1.
    rewrite ElementAt_middle.
    rewrite filter_app. simpl. unfold not_blank at 2.
    destruct (IsNullOrWhiteSpace (Value t)) eqn:Eb; simpl.
    + unfold bind, RemoveKeyValue.
      assert (Hfresh : ~ In (Key t) (map Key before)).
      { unfold unique_keys in Hu. rewrite map_app in Hu. simpl in Hu.
        apply NoDup_remove_2 in Hu. rewrite in_app_iff in Hu. tauto. }
      rewrite remove_entry_middle by exact Hfresh.
      rewrite IH, app_nil_r; [reflexivity|].
      unfold unique_keys in *. rewrite map_app in *. simpl in Hu.
      eapply NoDup_remove_1; eauto.
    + unfold bind, ret. rewrite IH by exact Hu.
      now rewrite <- app_assoc.
Qed.

Lemma RemoveEmptyTags_filter (tags : TagsCollection) :
  unique_keys tags -> RemoveEmptyTags tags = (Ok tt, filter not_blank tags).
Proof.
  intros Hu. unfold RemoveEmptyTags, bind, get, Count.
  rewrite <- (app_nil_r tags) at 2.
  rewrite RemoveEmptyTags_loop_filter; rewrite app_nil_r; auto.
Qed.

(** * Running the adapter *)

Section Execution.

Variable World : Type.
Variable this : OsmPointsOfInterestAdapter World.

Lemma bind_invoke A B (c : Call) (op : M World A) (k : A -> M (St World) B) s :
  bind (invoke c op) k s =
  match op (world s) with
  | (Ok a, w) => k a (mkSt w (log s ++ [ok c]))
  | (Raise e, w) => (Raise e, mkSt w (log s ++ [ko c e]))
  end.
Proof. unfold bind, invoke. destruct (op (world s)) as [[a|e] w]; reflexivity. Qed.

Lemma bind_mutate B tags helper (k : TagsCollection -> M (St World) B) s :
  bind (mutate tags helper) k s =
  match helper tags with
  | (Ok _, tags') => k tags' s
  | (Raise e, _) => (Raise e, s)
  end.
Proof. unfold bind, mutate. destruct (helper tags) as [[a|e] w]; reflexivity. Qed.

Lemma bind_lift A B (r : Exc A) (k : A -> M (St World) B) s :
  bind (lift r) k s = match r with Ok a => k a s | Raise e => (Raise e, s) end.
Proof. unfold bind, lift. destruct r; reflexivity. Qed.

Lemma fetch_as_invoke geometry (osmGateway : IOsmGateway World) id :
  match geometry with
  | Point => invoke (OsmGetNode id) (GetNode osmGateway id)
  | LineString | Polygon =>
      invoke (OsmGetCompleteWay id) (GetCompleteWay osmGateway id)
  | OtherGeometry =>
      invoke (OsmGetCompleteRelation id) (GetCompleteRelation osmGateway id)
  end
  = invoke (fetch_call geometry id) (fetch_operation osmGateway geometry id).
Proof. destruct geometry; reflexivity. Qed.

(** What [UpdateElasticSearch] adds to the log: nothing, or one upsert
    whose outcome is the outcome of the whole. *)
Lemma UpdateElasticSearch_log osm name s r s' :
  UpdateElasticSearch this osm name s = (r, s') ->
  log s' = log s \/
  exists feature, log s' = log s ++ [mkEvent (EsUpdateNamesData feature) (outcome r)].
Proof.
  unfold UpdateElasticSearch. destruct name as [name|].
  - destruct (match map snd _ with [] => None | first :: _ => hd_error first end)
      as [feature|].
    + unfold invoke.
      destruct (UpdateNamesData _ _ _) as [res w]. intros [= <- <-].
      right. now exists feature.
    + intros [= <- <-]. now left.
  - intros [= <- <-]. now left.
Qed.

(** The logs of [AddPointOfInterest], path by path. *)
Lemma AddPointOfInterest_log poi tok lang w r s :
  run (AddPointOfInterest this poi tok lang) w = (r, s) ->
  let opening := OsmCreateChangeset (lit "Add POI interface from IHM site.") in
  (exists e, r = Raise e /\ log s = [ko opening e]) \/
  (exists e, r = Raise e /\ log s = [ok opening] /\
             fst (AddPointOfInterest_tags this poi lang []) = Raise e) \/
  exists cs tags,
    AddPointOfInterest_tags this poi lang [] = (Ok tt, tags) /\
    let location := PointOfInterestExtended.Location poi in
    let node :=
      CompleteOsmGeo.make Node None (Some (LatLng.lat location))
                          (Some (LatLng.lng location)) tags in
    let creation := OsmCreateElement cs node in
    let closing := OsmCloseChangeset cs in
    ((exists e, r = Raise e /\ log s = [ok opening; ko creation e]) \/
     (exists e, r = Raise e /\ log s = [ok opening; ok creation]) \/
     (exists e, r = Raise e /\ log s = [ok opening; ok creation; ko closing e]) \/
     log s = [ok opening; ok creation; ok closing] \/
     (exists feature,
         log s = [ok opening; ok creation; ok closing;
                  mkEvent (EsUpdateNamesData feature) (outcome r)])).
Proof.
  intros H opening. unfold run, AddPointOfInterest in H. cbv zeta in H.
  rewrite bind_invoke in H. cbn [world log app] in H.
  destruct (CreateChangeset _ _ _) as [[cs|e] w1].
  2:{ injection H as <- <-. left. eauto. }
  rewrite bind_mutate in H.
  destruct (AddPointOfInterest_tags _ _ _ _) as [[[]|e] tags] eqn:Etags.
  2:{ injection H as <- <-. right; left. eauto. }
  right; right. exists cs, tags. split; [reflexivity|]. cbv zeta.
  rewrite bind_invoke in H. cbn [world log app] in H.
  destruct (CreateElement _ _ _ _) as [[id|e] w2].
  2:{ injection H as <- <-. left. eauto. }
  rewrite bind_lift in H.
  destruct (long_Parse id) as [n|e].
  2:{ injection H as <- <-. right; left. eauto. }
  rewrite bind_invoke in H. cbn [world log app] in H.
  destruct (CloseChangeset _ _ _) as [[[]|e] w3].
  2:{ injection H as <- <-. right; right; left. eauto. }
  right; right; right.
  apply UpdateElasticSearch_log in H. cbn [log app] in H.
  destruct H as [H|[feature H]]; [left | right; exists feature]; exact H.
Qed.

(** The logs of [UpdatePointOfInterest], path by path. *)
Lemma UpdatePointOfInterest_log poi tok lang w r s :
  run (UpdatePointOfInterest this poi tok lang) w = (r, s) ->
  let osmGateway := CreateOsmGateway (_httpGatewayFactory this) tok in
  let id := PointOfInterestExtended.Id poi in
  let lookup := EsGetPointOfInterestById id Sources.OSM in
  let opening := OsmCreateChangeset (lit "Update POI interface from IHM site.") in
  (exists e, r = Raise e /\ log s = [ko lookup e]) \/
  exists feature w1,
    GetPointOfInterestById (_elasticSearchGateway this) id Sources.OSM w
    = (Ok feature, w1) /\
    let fetching := fetch_call (Feature.Geometry_ feature) id in
    (exists e, r = Raise e /\ log s = [ok lookup; ko fetching e]) \/
    exists fetched w2,
      fetch_operation osmGateway (Feature.Geometry_ feature) id w1
      = (Ok fetched, w2) /\
      let tagging :=
        UpdatePointOfInterest_tags this poi feature lang
                                   (CompleteOsmGeo.Tags fetched) in
      (exists e, r = Raise e /\ log s = [ok lookup; ok fetching] /\
                 fst tagging = Raise e) \/
      exists tags,
        tagging = (Ok tt, tags) /\
        let element := CompleteOsmGeo.with_Tags fetched tags in
        (exists e, r = Raise e /\ log s = [ok lookup; ok fetching; ko opening e]) \/
        exists cs,
          let updating := OsmUpdateElement cs element in
          let closing := OsmCloseChangeset cs in
          let before := [ok lookup; ok fetching; ok opening] in
          (exists e, r = Raise e /\ log s = before ++ [ko updating e]) \/
          (exists e, r = Raise e /\ log s = before ++ [ok updating; ko closing e]) \/
          log s = before ++ [ok updating; ok closing] \/
          (exists upserted,
              log s = before ++ [ok updating; ok closing;
                                 mkEvent (EsUpdateNamesData upserted) (outcome r)]).
Proof.
  intros H osmGateway id lookup opening.
  unfold run, UpdatePointOfInterest in H. cbv zeta in H.
  rewrite bind_invoke in H. cbn [world log app] in H.
  destruct (GetPointOfInterestById _ _ _ _) as [[feature|e] w1] eqn:Elookup.
  2:{ injection H as <- <-. left. eauto. }
  right. exists feature, w1. split; [reflexivity|]. cbv zeta.
  rewrite fetch_as_invoke in H.
  rewrite bind_invoke in H. cbn [world log app] in H.
  destruct (fetch_operation _ _ _ _) as [[fetched|e] w2] eqn:Efetch.
  2:{ injection H as <- <-. left. eauto. }
  right. exists fetched, w2. split; [reflexivity|]. cbv zeta.
  rewrite bind_mutate in H.
  destruct (UpdatePointOfInterest_tags _ _ _ _ _) as [[[]|e] tags] eqn:Etags.
  2:{ injection H as <- <-. left. eauto. }
  right. exists tags. split; [reflexivity|]. cbv zeta.
  rewrite bind_invoke in H. cbn [world log app] in H.
  destruct (CreateChangeset _ _ _) as [[cs|e] w3].
  2:{ injection H as <- <-. left. eauto. }
  right. exists cs. cbv zeta.
  rewrite bind_invoke in H. cbn [world log app] in H.
  destruct (UpdateElement _ _ _ _) as [[[]|e] w4].
  2:{ injection H as <- <-. left. eauto. }
  rewrite bind_invoke in H. cbn [world log app] in H.
  destruct (CloseChangeset _ _ _) as [[[]|e] w5].
  2:{ injection H as <- <-. right; left. eauto. }
  right; right.
  apply UpdateElasticSearch_log in H. cbn [log app] in H.
  destruct H as [H|[upserted H]]; [left | right; exists upserted]; exact H.
Qed.

End Execution.

(** * The tag set as a finite map

    What each helper does to the value found under a key. *)

Lemma bind_Ok S A B (m : M S A) (k : A -> M S B) s b s' :
  bind m k s = (Ok b, s') ->
  exists a s1, m s = (Ok a, s1) /\ k a s1 = (Ok b, s').
Proof.
  unfold bind. destruct (m s) as [[a|e] s1]; [eauto | discriminate].
Qed.

Lemma GetValue_snoc tags key value k :
  ContainsKey tags key = false ->
  GetValue (tags ++ [mkTag key value]) k =
  if str_eqb key k then Some value else GetValue tags k.
Proof.
  intros Hc. rewrite GetValue_app. simpl.
  destruct (str_eqb_spec key k) as [<-|_].
  - apply GetValue_ContainsKey in Hc. now rewrite Hc.
  - now destruct (GetValue tags k).
Qed.

Lemma Add_lookup key value tags tags' :
  Add key value tags = (Ok tt, tags') ->
  forall k, GetValue tags' k = if str_eqb key k then Some value else GetValue tags k.
Proof.
  unfold Add. destruct (ContainsKey tags key) eqn:Hc; [discriminate|].
  intros [= <-] k. now apply GetValue_snoc.
Qed.

Lemma SetItem_lookup key value tags r tags' :
  SetItem key value tags = (r, tags') ->
  forall k, GetValue tags' k = if str_eqb key k then Some value else GetValue tags k.
Proof.
  unfold SetItem. destruct (ContainsKey tags key) eqn:Hc; intros [= <- <-] k.
  - destruct (str_eqb_spec key k) as [<-|Hne].
    + now apply GetValue_replace_value_same.
    + apply GetValue_replace_value_other. congruence.
  - now apply GetValue_snoc.
Qed.

Lemma qualified_key_longer (key suffix : str) : key ++ lit ":" ++ suffix <> key.
Proof.
  intros H. apply (f_equal (@List.length char)) in H.
  rewrite !length_app in H. simpl in H. lia.
Qed.

Lemma SetTagByLanguage_lookup default key value language tags r tags' :
  SetTagByLanguage default key value language tags = (r, tags') ->
  let resolved := GetLanguage value language in
  let keyWithLanguage := key ++ lit ":" ++ or_empty resolved in
  forall k,
    GetValue tags' k =
    if cstring_eqb resolved default then
      if ContainsKey tags key then
        if str_eqb key k then Some value else GetValue tags k
      else
        if str_eqb keyWithLanguage k then Some value
        else if str_eqb key k then Some value else GetValue tags k
    else
      if str_eqb keyWithLanguage k then Some value else GetValue tags k.
Proof.
  intros H resolved kl k. revert H.
  unfold SetTagByLanguage, bind, get. fold resolved. fold kl.
  assert (qualified : forall t r' t',
    (if ContainsKey t kl then SetItem kl value else Add kl value) t = (r', t') ->
    GetValue t' k = if str_eqb kl k then Some value else GetValue t k).
  { intros t r' t' H. destruct (ContainsKey t kl) eqn:Hc.
    - eapply SetItem_lookup; eauto.
    - unfold Add in H. rewrite Hc in H. injection H as <- <-.
      now apply GetValue_snoc. }
  destruct (cstring_eqb resolved default).
  - destruct (ContainsKey tags key) eqn:Hc.
    + intros H. eapply SetItem_lookup; eauto.
    + unfold Add at 1. rewrite Hc. intros H.
      apply qualified in H. rewrite H.
      now rewrite GetValue_snoc by exact Hc.
  - apply qualified.
Qed.

Lemma UpdateTagsByIcon_lookup icon tags tags' :
  UpdateTagsByIcon icon tags = (Ok tt, tags') ->
  forall k,
    GetValue tags' k =
    match icon_case icon with
    | Some (key, value) => if str_eqb key k then Some (Some value) else GetValue tags k
    | None => GetValue tags k
    end.
Proof.
  unfold UpdateTagsByIcon. destruct (icon_case icon) as [[key value]|].
  - apply Add_lookup.
  - now intros [= <-].
Qed.

Lemma GetValue_filter tags k :
  unique_keys tags ->
  GetValue (filter not_blank tags) k = stripped (GetValue tags k).
Proof.
  unfold unique_keys.
  induction tags as [|t rest IH]; simpl; intros Hnd; [reflexivity|].
  inversion Hnd as [|? ? Hfresh Hrest]; subst.
  unfold not_blank at 1.
  destruct (IsNullOrWhiteSpace (Value t)) eqn:Hb; simpl.
  - destruct (str_eqb_spec (Key t) k) as [<-|_]; simpl; rewrite ?Hb; [|auto].
    rewrite IH by exact Hrest.
    apply ContainsKey_false, GetValue_ContainsKey in Hfresh. now rewrite Hfresh.
  - destruct (str_eqb_spec (Key t) k) as [<-|_]; simpl; rewrite ?Hb; auto.
Qed.

Lemma RemoveEmptyTags_lookup tags r tags' :
  unique_keys tags ->
  RemoveEmptyTags tags = (r, tags') ->
  r = Ok tt /\ unique_keys tags' /\
  Forall (fun t => IsNullOrWhiteSpace (Value t) = false) tags' /\
  forall k, GetValue tags' k = stripped (GetValue tags k).
Proof.
  intros Hu H. rewrite RemoveEmptyTags_filter in H by exact Hu.
  injection H as <- <-. repeat split.
  - now apply unique_keys_filter.
  - apply Forall_forall. intros t Ht. apply filter_In in Ht as [_ Ht].
    unfold not_blank in Ht. now destruct (IsNullOrWhiteSpace (Value t)).
  - intros k. now apply GetValue_filter.
Qed.

(** * Language resolution *)

Lemma IsNullOrWhiteSpace_blank (value : cstring) :
  IsNullOrWhiteSpace value = true <-> blank value.
Proof.
  destruct value as [s|]; simpl; [|tauto].
  now rewrite forallb_forall, Forall_forall.
Qed.

Lemma is_hebrew_spec (c : char) : is_hebrew c = true <-> HebrewRange c.
Proof. apply in_range_spec. Qed.

Lemma is_latin_letter_spec (c : char) : is_latin_letter c = true <-> LatinLetter c.
Proof.
  unfold is_latin_letter, LatinLetter.
  now rewrite orb_true_iff, !in_range_spec.
Qed.

Lemma hebrew_not_latin (c : char) : HebrewRange c -> ~ LatinLetter c.
Proof. unfold HebrewRange, LatinLetter. lia. Qed.

Lemma HasHebrewCharacters_spec (words : str) :
  HasHebrewCharacters words = true <-> anchored_hebrew words.
Proof.
  induction words as [|c rest IH]; simpl.
  - split; [discriminate|]. intros (leading & x & tail & H & _).
    now destruct leading.
  - rewrite orb_true_iff, andb_true_iff, negb_true_iff. split.
    + intros [Hc|[Hc Hrest]].
      * exists [], c, rest.
        split; [reflexivity|]. split; [constructor | now apply is_hebrew_spec].
      * apply IH in Hrest as (leading & x & tail & -> & Hl & Hx).
        exists (c :: leading), x, tail.
        split; [reflexivity|]. split; [|exact Hx].
        constructor; [|exact Hl].
        rewrite <- is_latin_letter_spec. congruence.
    + intros (leading & x & tail & H & Hl & Hx).
      destruct leading as [|y leading]; simpl in H; injection H as Hc Hr.
      * left. apply is_hebrew_spec. now rewrite Hc.
      * right. inversion Hl as [|? ? Hy Hl']; subst. split.
        -- rewrite <- is_latin_letter_spec in Hy.
           now destruct (is_latin_letter y).
        -- apply IH. now exists leading, x, tail.
Qed.

(** C6: language resolution returns the requested language for a blank
    value; for any other value it returns "he" exactly when the value matches
    the anchored Hebrew pattern and "en" otherwise, whatever the caller
    requested. *)
Theorem GetLanguage_resolution (value language : cstring) :
  (blank value -> GetLanguage value language = language) /\
  (~ blank value ->
   (anchored_hebrew (or_empty value) ->
    GetLanguage value language = Some (lit "he")) /\
   (~ anchored_hebrew (or_empty value) ->
    GetLanguage value language = Some (lit "en"))).
Proof.
  unfold GetLanguage. rewrite <- IsNullOrWhiteSpace_blank.
  rewrite <- HasHebrewCharacters_spec.
  destruct (IsNullOrWhiteSpace value); split; try congruence.
  intros _. destruct (HasHebrewCharacters (or_empty value)); simpl;
    split; congruence.
Qed.

Lemma GetLanguage_resolution_witness :
  GetLanguage (Some kinneret) en = he /\
  GetLanguage (Some (lit "Sea of Galilee")) he = en /\
  GetLanguage (Some (lit "  ")) (Some (lit "fr")) = Some (lit "fr").
Proof.
  split; [|split].
  - apply (proj2 (GetLanguage_resolution (Some kinneret) en)).
    + simpl. intros H. inversion H. discriminate.
    + exists [], 0x5D4%N, [0x5DB; 0x5E0; 0x5E8; 0x5EA]%N.
      split; [reflexivity|]. split; [constructor|].
      split; vm_compute; discriminate.
  - apply (proj2 (GetLanguage_resolution (Some (lit "Sea of Galilee")) he)).
    + simpl. intros H. inversion H. discriminate.
    + rewrite <- HasHebrewCharacters_spec. vm_compute. discriminate.
  - apply (proj1 (GetLanguage_resolution (Some (lit "  ")) (Some (lit "fr")))).
    simpl. repeat constructor.
Defined.

(** * The keys the operations write *)

Lemma icon_case_category icon key value :
  icon_case icon = Some (key, value) ->
  category_key key /\ IsNullOrWhiteSpace (Some value) = false.
Proof.
  unfold icon_case, category_key.
  repeat match goal with
         | |- context [if case icon ?label then _ else _] =>
             destruct (case icon label)
         end;
    intros [= <- <-]; split; try reflexivity; auto.
Qed.

(** No key written for a name, a description, an image or a website is a
    key of the icon vocabulary. *)
Lemma category_key_apart k :
  category_key k ->
  str_eqb FeatureAttributes.NAME k = false /\
  str_eqb FeatureAttributes.DESCRIPTION k = false /\
  str_eqb FeatureAttributes.IMAGE_URL k = false /\
  str_eqb FeatureAttributes.WEBSITE k = false /\
  (forall suffix, str_eqb (FeatureAttributes.NAME ++ lit ":" ++ suffix) k = false) /\
  (forall suffix, str_eqb (FeatureAttributes.DESCRIPTION ++ lit ":" ++ suffix) k = false).
Proof.
  intros [ -> | [ -> | -> ] ]; repeat split; try intros suffix; reflexivity.
Qed.

Lemma SetTagByLanguage_frame default key value language tags r tags' k :
  SetTagByLanguage default key value language tags = (r, tags') ->
  str_eqb key k = false ->
  (forall suffix, str_eqb (key ++ lit ":" ++ suffix) k = false) ->
  GetValue tags' k = GetValue tags k.
Proof.
  intros H Hk Hq. rewrite (SetTagByLanguage_lookup _ _ _ _ _ H).
  rewrite Hk, Hq.
  now destruct (cstring_eqb _ default), (ContainsKey tags key).
Qed.

Lemma SetItem_frame key value tags r tags' k :
  SetItem key value tags = (r, tags') ->
  str_eqb key k = false ->
  GetValue tags' k = GetValue tags k.
Proof.
  intros H Hk. now rewrite (SetItem_lookup _ _ _ H), Hk.
Qed.

Section Tagging.

Variable World : Type.
Variable this : OsmPointsOfInterestAdapter World.

(** The tags of a created node: the collection after the writes and the
    icon mapping, with the empty tags filtered out.  Nothing throws. *)
Lemma AddPointOfInterest_tags_steps poi lang :
  let default := DefaultLanguage (_options this) in
  let t1 := [mkTag FeatureAttributes.IMAGE_URL (PointOfInterestExtended.ImageUrl poi);
             mkTag FeatureAttributes.WEBSITE (PointOfInterestExtended.Url poi)] in
  exists t2 t3 t4,
    SetTagByLanguage default FeatureAttributes.NAME
      (PointOfInterestExtended.Title poi) lang t1 = (Ok tt, t2) /\
    SetTagByLanguage default FeatureAttributes.DESCRIPTION
      (PointOfInterestExtended.Description poi) lang t2 = (Ok tt, t3) /\
    UpdateTagsByIcon (PointOfInterestExtended.Icon poi) t3 = (Ok tt, t4) /\
    unique_keys t4 /\
    AddPointOfInterest_tags this poi lang [] = (Ok tt, filter not_blank t4).
Proof.
  intros default t1.
  assert (Hu1 : unique_keys t1).
  { unfold unique_keys, t1. simpl. repeat constructor; simpl; [|tauto].
    intros [H|[]]. discriminate H. }
  destruct (SetTagByLanguage default FeatureAttributes.NAME
              (PointOfInterestExtended.Title poi) lang t1) as [r2 t2] eqn:E2.
  pose proof (SetTagByLanguage_Ok default FeatureAttributes.NAME
                (PointOfInterestExtended.Title poi) lang t1) as O2.
  rewrite E2 in O2. simpl in O2. subst r2.
  destruct (SetTagByLanguage default FeatureAttributes.DESCRIPTION
              (PointOfInterestExtended.Description poi) lang t2) as [r3 t3] eqn:E3.
  pose proof (SetTagByLanguage_Ok default FeatureAttributes.DESCRIPTION
                (PointOfInterestExtended.Description poi) lang t2) as O3.
  rewrite E3 in O3. simpl in O3. subst r3.
  assert (Hu3 : unique_keys t3).
  { eapply SetTagByLanguage_unique_keys; [exact E3|].
    eapply SetTagByLanguage_unique_keys; [exact E2|exact Hu1]. }
  assert (E4 : exists t4,
             UpdateTagsByIcon (PointOfInterestExtended.Icon poi) t3 = (Ok tt, t4)).
  { unfold UpdateTagsByIcon.
    destruct (icon_case (PointOfInterestExtended.Icon poi)) as [[k v]|] eqn:Ei;
      [|eexists; reflexivity].
    apply icon_case_category in Ei as [Hk _].
    apply category_key_apart in Hk as (N1 & N2 & N3 & N4 & N5 & N6).
    assert (Hfresh : GetValue t3 k = None).
    { rewrite (SetTagByLanguage_frame _ _ _ _ _ _ E3 N2 N6).
      rewrite (SetTagByLanguage_frame _ _ _ _ _ _ E2 N1 N5).
      unfold t1. cbn [GetValue Key]. now rewrite N3, N4. }
    apply GetValue_ContainsKey in Hfresh.
    unfold Add. rewrite Hfresh. eexists; reflexivity. }
  destruct E4 as [t4 E4].
  assert (Hu4 : unique_keys t4) by (eapply UpdateTagsByIcon_unique_keys; eauto).
  exists t2, t3, t4. repeat split; auto.
  unfold AddPointOfInterest_tags, bind. fold default.
  change (Add FeatureAttributes.IMAGE_URL (PointOfInterestExtended.ImageUrl poi) [])
    with (Ok tt, [mkTag FeatureAttributes.IMAGE_URL (PointOfInterestExtended.ImageUrl poi)]).
  cbv iota beta.
  change (Add FeatureAttributes.WEBSITE (PointOfInterestExtended.Url poi)
            [mkTag FeatureAttributes.IMAGE_URL (PointOfInterestExtended.ImageUrl poi)])
    with (Ok tt, t1).
  cbv iota beta. rewrite E2, E3, E4.
  now apply RemoveEmptyTags_filter.
Qed.

(** The tags of an updated element, when nothing throws: the collection
    after the four writes and, if the icon differs from the stored one, the
    icon mapping, with the empty tags filtered out. *)
Lemma UpdatePointOfInterest_tags_steps poi feature lang tags tags' :
  unique_keys tags ->
  UpdatePointOfInterest_tags this poi feature lang tags = (Ok tt, tags') ->
  let default := DefaultLanguage (_options this) in
  let icon := PointOfInterestExtended.Icon poi in
  exists t1 t2 t3 t4 stored t5,
    SetTagByLanguage default FeatureAttributes.NAME
      (PointOfInterestExtended.Description poi) lang tags = (Ok tt, t1) /\
    SetTagByLanguage default FeatureAttributes.DESCRIPTION
      (PointOfInterestExtended.Description poi) lang t1 = (Ok tt, t2) /\
    SetItem FeatureAttributes.IMAGE_URL (PointOfInterestExtended.ImageUrl poi) t2
    = (Ok tt, t3) /\
    SetItem FeatureAttributes.WEBSITE (PointOfInterestExtended.Url poi) t3
    = (Ok tt, t4) /\
    attribute (Feature.Attributes feature) FeatureAttributes.ICON = Ok stored /\
    (if cstring_eqb icon (Some stored) then t5 = t4
     else UpdateTagsByIcon icon t4 = (Ok tt, t5)) /\
    unique_keys t5 /\
    tags' = filter not_blank t5.
Proof.
  intros Hu H default icon. unfold UpdatePointOfInterest_tags in H.
  fold default icon in H.
  apply bind_Ok in H as ([] & t1 & E1 & H).
  apply bind_Ok in H as ([] & t2 & E2 & H).
  apply bind_Ok in H as ([] & t3 & E3 & H).
  apply bind_Ok in H as ([] & t4 & E4 & H).
  apply bind_Ok in H as (stored & t4' & Es & H).
  unfold lift in Es.
  destruct (attribute _ _) as [stored'|] eqn:Ea; [|discriminate].
  injection Es as -> <-.
  apply bind_Ok in H as ([] & t5 & E5 & H).
  assert (Hu4 : unique_keys t4).
  { eapply SetItem_unique_keys; [exact E4|].
    eapply SetItem_unique_keys; [exact E3|].
    eapply SetTagByLanguage_unique_keys; [exact E2|].
    eapply SetTagByLanguage_unique_keys; [exact E1|exact Hu]. }
  assert (Hu5 : unique_keys t5).
  { destruct (negb (cstring_eqb icon (Some stored))).
    - eapply UpdateTagsByIcon_unique_keys; eauto.
    - injection E5 as <-. exact Hu4. }
  rewrite RemoveEmptyTags_filter in H by exact Hu5. injection H as <-.
  exists t1, t2, t3, t4, stored, t5. repeat split; auto.
  destruct (cstring_eqb icon (Some stored)); simpl in E5; [|exact E5].
  now injection E5 as <-.
Qed.

End Tagging.

(** * The changeset discipline *)

Ltac read_log :=
  repeat match goal with
         | H : failed_with _ _ _ |- _ =>
             let ev := fresh "ev" in
             let Hin := fresh "Hin" in
             destruct H as (ev & Hin & ? & ?)
         | H : In _ (_ :: _) |- _ => destruct H as [H|H]; [subst|]
         | H : In _ [] |- _ => destruct H
         | H : _ \/ _ |- _ => destruct H as [H|H]
         | H : exists _, _ |- _ => destruct H as [? H]
         | H : _ /\ _ |- _ => destruct H as [? H]
         end;
  subst; simpl in *; try discriminate; try congruence.




(** * The search index is written last *)

Lemma succeeded_before_last (first second : Call -> bool) l closing upsert :
  first (call closing) = true -> returned closing = true ->
  second (call upsert) = true ->
  succeeded_before first second (l ++ [closing; upsert]).
Proof.
  intros H1 H2 H3. exists l, closing, [], upsert, []. auto.
Qed.

Lemma AddPointOfInterest_upsert World (this : OsmPointsOfInterestAdapter World)
    poi tok lang w r s :
  run (AddPointOfInterest this poi tok lang) w = (r, s) ->
  upsert_discipline (log s).
Proof.
  intros H. apply AddPointOfInterest_log in H. cbv zeta in H.
  destruct H as [H|[H|(cs & tags & _ & H)]];
    [| |destruct H as [H|[H|[H|[H|H]]]]];
    read_log;
    match goal with H : log s = _ |- _ => rewrite H end;
    (split; [intros Hu; try discriminate Hu | intros e He; read_log; auto]).
  now apply (succeeded_before_last is_close is_upsert [_; _]).
Qed.

Lemma UpdatePointOfInterest_upsert World (this : OsmPointsOfInterestAdapter World)
    poi tok lang w r s :
  run (UpdatePointOfInterest this poi tok lang) w = (r, s) ->
  upsert_discipline (log s).
Proof.
  intros H. apply UpdatePointOfInterest_log in H. cbv zeta in H.
  destruct H as [H|(feature & w1 & _ & [H|(fetched & w2 & _ & [H|(tags & _ & [H|(cs & H)])])])];
    [| | | |destruct H as [H|[H|[H|H]]]];
    read_log;
    match goal with H : log s = _ |- _ => rewrite H end;
    (split;
     [intros Hu; simpl in Hu; try discriminate Hu;
      try (destruct (Feature.Geometry_ feature); discriminate Hu)
     | intros e He; read_log;
       try (destruct (Feature.Geometry_ feature); read_log); auto]).
  now apply (succeeded_before_last is_close is_upsert [_; _; _; _]).
Qed.

(** C2: in every create and every update the search-index upsert is made
    only after the close of the changeset has returned; when the opening,
    the mutation or the close fails, no upsert is made in that call. *)
Theorem upsert_only_after_close World (this : OsmPointsOfInterestAdapter World)
    poi tok lang w :
  upsert_discipline (log (snd (run (AddPointOfInterest this poi tok lang) w))) /\
  upsert_discipline (log (snd (run (UpdatePointOfInterest this poi tok lang) w))).
Proof.
  split.
  - destruct (run (AddPointOfInterest this poi tok lang) w) as [r s] eqn:E.
    eapply AddPointOfInterest_upsert; eauto.
  - destruct (run (UpdatePointOfInterest this poi tok lang) w) as [r s] eqn:E.
    eapply UpdatePointOfInterest_upsert; eauto.
Qed.

Lemma upsert_only_after_close_witness :
  attempted is_upsert
    (log (snd (run (AddPointOfInterest
                      (scripted_adapter failing_close empty_node plain_feature he)
                      kinneret_poi some_token en) 0))) = false /\
  succeeded_before is_close is_upsert
    (log (snd (run (UpdatePointOfInterest
                      (scripted_adapter no_faults empty_node plain_feature he)
                      kinneret_poi some_token en) 0))).
Proof.
  split.
  - apply (proj2 (proj1 (upsert_only_after_close
                           (scripted_adapter failing_close empty_node plain_feature he)
                           kinneret_poi some_token en 0))
                 (ServiceException 500)).
    right; right. eexists. split; [|split].
    + vm_compute. right; right; left. reflexivity.
    + reflexivity.
    + reflexivity.
  - apply (proj1 (proj2 (upsert_only_after_close
                           (scripted_adapter no_faults empty_node plain_feature he)
                           kinneret_poi some_token en 0))).
    reflexivity.
Defined.

(** * No empty tag is persisted *)

Lemma no_empty_value_filter (tags : TagsCollection) :
  no_empty_value (filter not_blank tags).
Proof.
  apply Forall_forall. intros t Ht. apply filter_In in Ht as [_ Ht].
  unfold not_blank in Ht. now destruct (IsNullOrWhiteSpace (Value t)).
Qed.

Lemma AddPointOfInterest_persists World (this : OsmPointsOfInterestAdapter World)
    poi tok lang w r s :
  run (AddPointOfInterest this poi tok lang) w = (r, s) ->
  persists_no_empty_value (log s).
Proof.
  intros H ev element Hin Hel.
  apply AddPointOfInterest_log in H. cbv zeta in H.
  destruct (AddPointOfInterest_tags_steps this poi lang)
    as (t2 & t3 & t4 & _ & _ & _ & _ & Etags).
  assert (Hdone : forall cs tags,
             AddPointOfInterest_tags this poi lang [] = (Ok tt, tags) ->
             mutated_element (OsmCreateElement cs
               (CompleteOsmGeo.make Node None
                  (Some (LatLng.lat (PointOfInterestExtended.Location poi)))
                  (Some (LatLng.lng (PointOfInterestExtended.Location poi))) tags))
             = Some element ->
             no_empty_value (CompleteOsmGeo.Tags element)).
  { intros cs tags E [= <-]. simpl. rewrite Etags in E. injection E as <-.
    apply no_empty_value_filter. }
  destruct H as [H|[H|(cs & tags & E & H)]];
    [| |destruct H as [H|[H|[H|[H|H]]]]];
    read_log;
    match goal with H : log s = _ |- _ => rewrite H in Hin end;
    read_log; eauto.
Qed.

Lemma UpdatePointOfInterest_persists World (this : OsmPointsOfInterestAdapter World)
    poi tok lang w r s :
  fetches_unique_keys (CreateOsmGateway (_httpGatewayFactory this) tok) ->
  run (UpdatePointOfInterest this poi tok lang) w = (r, s) ->
  persists_no_empty_value (log s).
Proof.
  intros Hgw H ev element Hin Hel.
  apply UpdatePointOfInterest_log in H. cbv zeta in H.
  assert (Hdone : forall feature fetched w1 w2 cs tags,
             fetch_operation (CreateOsmGateway (_httpGatewayFactory this) tok)
               (Feature.Geometry_ feature) (PointOfInterestExtended.Id poi) w1
             = (Ok fetched, w2) ->
             UpdatePointOfInterest_tags this poi feature lang
               (CompleteOsmGeo.Tags fetched) = (Ok tt, tags) ->
             mutated_element (OsmUpdateElement cs (CompleteOsmGeo.with_Tags fetched tags))
             = Some element ->
             no_empty_value (CompleteOsmGeo.Tags element)).
  { intros feature fetched w1 w2 cs tags Ef Et [= <-]. simpl.
    apply Hgw in Ef.
    apply (UpdatePointOfInterest_tags_steps _ _ _ _ Ef) in Et.
    destruct Et as (t1 & t2 & t3 & t4 & stored & t5 & _ & _ & _ & _ & _ & _ & _ & ->).
    apply no_empty_value_filter. }
  destruct H as [H|(feature & w1 & _ & [H|(fetched & w2 & Ef & [H|(tags & Et & [H|(cs & H)])])])];
    [| | | |destruct H as [H|[H|[H|H]]]];
    read_log;
    match goal with H : log s = _ |- _ => rewrite H in Hin end;
    read_log;
    try (destruct (Feature.Geometry_ feature); discriminate);
    eauto.
Qed.

(** C8: after [RemoveEmptyTags] no tag of the set has an empty or
    white-space value; create and update run it after every other write on the
    tags, so no element handed to the OSM gateway for a mutation carries an
    empty-valued tag. *)
Theorem no_empty_tag_persisted :
  (forall tags, unique_keys tags ->
     exists tags', RemoveEmptyTags tags = (Ok tt, tags') /\ no_empty_value tags') /\
  (forall World (this : OsmPointsOfInterestAdapter World) poi tok lang w,
     persists_no_empty_value
       (log (snd (run (AddPointOfInterest this poi tok lang) w))) /\
     (fetches_unique_keys (CreateOsmGateway (_httpGatewayFactory this) tok) ->
      persists_no_empty_value
        (log (snd (run (UpdatePointOfInterest this poi tok lang) w))))).
Proof.
  split.
  - intros tags Hu. exists (filter not_blank tags). split.
    + now apply RemoveEmptyTags_filter.
    + apply no_empty_value_filter.
  - intros World this poi tok lang w. split.
    + destruct (run (AddPointOfInterest this poi tok lang) w) as [r s] eqn:E.
      eapply AddPointOfInterest_persists; eauto.
    + intros Hgw.
      destruct (run (UpdatePointOfInterest this poi tok lang) w) as [r s] eqn:E.
      eapply UpdatePointOfInterest_persists; eauto.
Qed.

Lemma scripted_osm_unique_keys script stored :
  unique_keys (CompleteOsmGeo.Tags stored) ->
  fetches_unique_keys (scripted_osm script stored).
Proof.
  intros Hu geometry id w element w' H.
  destruct geometry; simpl in H; injection H as <- _; exact Hu.
Qed.

Lemma blank_note_node_unique_keys : unique_keys (CompleteOsmGeo.Tags blank_note_node).
Proof.
  unfold unique_keys. simpl. repeat constructor; simpl; [|tauto].
  intros [H|[]]. discriminate H.
Qed.

Lemma no_empty_tag_persisted_witness :
  (exists tags',
      RemoveEmptyTags (CompleteOsmGeo.Tags blank_note_node) = (Ok tt, tags') /\
      no_empty_value tags') /\
  persists_no_empty_value
    (log (snd (run (UpdatePointOfInterest
                      (scripted_adapter no_faults blank_note_node plain_feature he)
                      kinneret_poi some_token en) 0))).
Proof.
  split.
  - apply (proj1 no_empty_tag_persisted). exact blank_note_node_unique_keys.
  - apply (proj2 no_empty_tag_persisted).
    apply scripted_osm_unique_keys. exact blank_note_node_unique_keys.
Defined.

(** * The name tags of a created node *)

Lemma GetLanguage_kinneret lang : GetLanguage (Some kinneret) lang = he.
Proof. reflexivity. Qed.

(** C5 (as the adapter behaves): a create with the Hebrew title of the
    example, under the default language "he", produces a tag set that holds
    the title under the base key [name] and under [name:he] as well; that tag
    set is what is handed to the OSM gateway. *)
Theorem create_hebrew_title_writes_both_keys
    World (this : OsmPointsOfInterestAdapter World) poi tok lang w :
  DefaultLanguage (_options this) = he ->
  PointOfInterestExtended.Title poi = Some kinneret ->
  exists tags,
    AddPointOfInterest_tags this poi lang [] = (Ok tt, tags) /\
    GetValue tags (lit "name") = Some (Some kinneret) /\
    GetValue tags (lit "name:he") = Some (Some kinneret) /\
    forall ev element,
      In ev (log (snd (run (AddPointOfInterest this poi tok lang) w))) ->
      mutated_element (call ev) = Some element ->
      CompleteOsmGeo.Tags element = tags.
Proof.
  intros Hdefault Htitle.
  destruct (AddPointOfInterest_tags_steps this poi lang)
    as (t2 & t3 & t4 & E2 & E3 & E4 & Hu4 & Etags).
  rewrite Hdefault, Htitle in E2. rewrite Hdefault in E3.
  assert (Hboth : forall k, k = lit "name" \/ k = lit "name:he" ->
                            GetValue t4 k = Some (Some kinneret)).
  { intros k Hk.
    assert (H4 : GetValue t4 k = GetValue t3 k).
    { rewrite (UpdateTagsByIcon_lookup _ _ E4).
      destruct (icon_case (PointOfInterestExtended.Icon poi)) as [[key value]|] eqn:Ei;
        [|reflexivity].
      apply icon_case_category in Ei as [[ -> | [ -> | -> ] ] _];
        destruct Hk as [ -> | -> ]; reflexivity. }
    assert (H3 : GetValue t3 k = GetValue t2 k).
    { apply (SetTagByLanguage_frame _ _ _ _ _ _ E3);
        try intros suffix; destruct Hk as [ -> | -> ]; reflexivity. }
    rewrite H4, H3, (SetTagByLanguage_lookup _ _ _ _ _ E2).
    rewrite GetLanguage_kinneret.
    destruct Hk as [ -> | -> ]; reflexivity. }
  exists (filter not_blank t4). split; [exact Etags|].
  rewrite !GetValue_filter by exact Hu4.
  rewrite !Hboth by auto.
  split; [reflexivity|]. split; [reflexivity|].
  intros ev element Hin Hel.
  destruct (run (AddPointOfInterest this poi tok lang) w) as [r s] eqn:E.
  apply AddPointOfInterest_log in E. cbv zeta in E. simpl in Hin.
  destruct E as [H|[H|(cs & tags & Et & H)]];
    [| |destruct H as [H|[H|[H|[H|H]]]]];
    read_log;
    match goal with H : log s = _ |- _ => rewrite H in Hin end;
    read_log;
    injection Hel as <-; rewrite Etags in Et; now injection Et as <-.
Qed.

Lemma create_hebrew_title_writes_both_keys_witness :
  exists tags,
    handed_tags (log (snd (run (AddPointOfInterest he_adapter kinneret_poi some_token en) 0)))
    = [tags] /\
    GetValue tags (lit "name") = Some (Some kinneret) /\
    GetValue tags (lit "name:he") = Some (Some kinneret).
Proof.
  destruct (create_hebrew_title_writes_both_keys
              he_adapter kinneret_poi some_token en 0 eq_refl eq_refl)
    as (tags & Etags & Hname & Hqualified & _).
  exists tags. split; [|split; assumption].
  vm_compute in Etags. injection Etags as <-. reflexivity.
Defined.

(** C5 (as the specification states it) fails: the tag set of that create
    holds the key [name:he]. *)
Lemma create_hebrew_title_has_qualified_key :
  exists tags,
    handed_tags (log (snd (run (AddPointOfInterest he_adapter kinneret_poi some_token en) 0)))
    = [tags] /\
    ~ (GetValue tags (lit "name") = Some (Some kinneret) /\
       ContainsKey tags (lit "name:he") = false).
Proof.
  eexists. split; [reflexivity|]. intros [_ H]. discriminate H.
Qed.

(** * The icon vocabulary in update *)

Section IconMapping.

Variable World : Type.
Variable this : OsmPointsOfInterestAdapter World.

(** The four writes of update never throw and leave the keys of the icon
    vocabulary alone; what follows them is the icon mapping, if the icon
    differs from the stored one, and the removal of the empty tags. *)
Lemma UpdatePointOfInterest_tags_writes poi feature lang tags :
  unique_keys tags ->
  exists t4,
    unique_keys t4 /\
    (forall k, category_key k -> GetValue t4 k = GetValue tags k) /\
    forall stored,
      attribute (Feature.Attributes feature) FeatureAttributes.ICON = Ok stored ->
      UpdatePointOfInterest_tags this poi feature lang tags =
      bind (if negb (cstring_eqb (PointOfInterestExtended.Icon poi) (Some stored))
            then UpdateTagsByIcon (PointOfInterestExtended.Icon poi)
            else ret tt)
           (fun _ => RemoveEmptyTags) t4.
Proof.
  intros Hu.
  set (default := DefaultLanguage (_options this)).
  destruct (SetTagByLanguage default FeatureAttributes.NAME
              (PointOfInterestExtended.Description poi) lang tags) as [r1 t1] eqn:E1.
  pose proof (SetTagByLanguage_Ok default FeatureAttributes.NAME
                (PointOfInterestExtended.Description poi) lang tags) as O1.
  rewrite E1 in O1. simpl in O1. subst r1.
  destruct (SetTagByLanguage default FeatureAttributes.DESCRIPTION
              (PointOfInterestExtended.Description poi) lang t1) as [r2 t2] eqn:E2.
  pose proof (SetTagByLanguage_Ok default FeatureAttributes.DESCRIPTION
                (PointOfInterestExtended.Description poi) lang t1) as O2.
  rewrite E2 in O2. simpl in O2. subst r2.
  destruct (SetItem FeatureAttributes.IMAGE_URL
              (PointOfInterestExtended.ImageUrl poi) t2) as [r3 t3] eqn:E3.
  pose proof (SetItem_Ok FeatureAttributes.IMAGE_URL
                (PointOfInterestExtended.ImageUrl poi) t2) as O3.
  rewrite E3 in O3. simpl in O3. subst r3.
  destruct (SetItem FeatureAttributes.WEBSITE
              (PointOfInterestExtended.Url poi) t3) as [r4 t4] eqn:E4.
  pose proof (SetItem_Ok FeatureAttributes.WEBSITE
                (PointOfInterestExtended.Url poi) t3) as O4.
  rewrite E4 in O4. simpl in O4. subst r4.
  exists t4. split; [|split].
  - eapply SetItem_unique_keys; [exact E4|].
    eapply SetItem_unique_keys; [exact E3|].
    eapply SetTagByLanguage_unique_keys; [exact E2|].
    eapply SetTagByLanguage_unique_keys; [exact E1|exact Hu].
  - intros k Hk.
    apply category_key_apart in Hk as (N1 & N2 & N3 & N4 & N5 & N6).
    rewrite (SetItem_frame _ _ _ _ E4 N4), (SetItem_frame _ _ _ _ E3 N3).
    rewrite (SetTagByLanguage_frame _ _ _ _ _ _ E2 N2 N6).
    apply (SetTagByLanguage_frame _ _ _ _ _ _ E1 N1 N5).
  - intros stored Hs. unfold UpdatePointOfInterest_tags. fold default.
    unfold bind at 1. rewrite E1. unfold bind at 1. rewrite E2.
    unfold bind at 1. rewrite E3. unfold bind at 1. rewrite E4.
    unfold bind at 1, lift. rewrite Hs. reflexivity.
Qed.

(** The icon step of update, on any tag set. *)
Lemma UpdatePointOfInterest_tags_icon poi feature lang tags stored :
  unique_keys tags ->
  attribute (Feature.Attributes feature) FeatureAttributes.ICON = Ok stored ->
  let icon := PointOfInterestExtended.Icon poi in
  let tagging := UpdatePointOfInterest_tags this poi feature lang tags in
  (icon = Some stored ->
   exists tags',
     tagging = (Ok tt, tags') /\
     forall k, category_key k -> GetValue tags' k = stripped (GetValue tags k)) /\
  (icon <> Some stored ->
   forall key value,
     icon_case icon = Some (key, value) ->
     (GetValue tags key = None ->
      exists tags',
        tagging = (Ok tt, tags') /\ GetValue tags' key = Some (Some value)) /\
     (GetValue tags key <> None -> fst tagging = Raise ArgumentException)).
Proof.
  intros Hu Hs icon tagging.
  destruct (UpdatePointOfInterest_tags_writes poi feature lang Hu)
    as (t4 & Hu4 & Hframe & Hrun).
  specialize (Hrun stored Hs). fold icon in Hrun. unfold tagging. rewrite Hrun.
  clear Hrun. split.
  - intros Hsame.
    destruct (cstring_eqb_spec icon (Some stored)) as [_|Hne]; [|contradiction].
    simpl. exists (filter not_blank t4). split.
    + unfold bind, ret. now apply RemoveEmptyTags_filter.
    + intros k Hk. rewrite GetValue_filter by exact Hu4. now rewrite Hframe.
  - intros Hdiff key value Hcase.
    destruct (cstring_eqb_spec icon (Some stored)) as [Heq|_]; [contradiction|].
    simpl. unfold UpdateTagsByIcon. rewrite Hcase.
    destruct (icon_case_category _ Hcase) as [Hk Hvalue].
    rewrite <- (Hframe key Hk). split.
    + intros Hfree. pose proof Hfree as Hc. apply GetValue_ContainsKey in Hc.
      unfold bind, Add. rewrite Hc.
      assert (Hu5 : unique_keys (t4 ++ [mkTag key (Some value)]))
        by now apply unique_keys_snoc.
      exists (filter not_blank (t4 ++ [mkTag key (Some value)])). split.
      * now apply RemoveEmptyTags_filter.
      * rewrite GetValue_filter by exact Hu5.
        rewrite GetValue_snoc by exact Hc. rewrite str_eqb_refl.
        simpl stripped. simpl in Hvalue. now rewrite Hvalue.
    + intros Hheld. unfold bind, Add.
      destruct (ContainsKey t4 key) eqn:Hc; [reflexivity|].
      apply GetValue_ContainsKey in Hc. contradiction.
Qed.

(** What update hands to the gateway: the fetched element, with the tags
    that [UpdatePointOfInterest_tags] leaves from the fetched ones. *)
Lemma UpdatePointOfInterest_handed poi tok lang w ev element :
  In ev (log (snd (run (UpdatePointOfInterest this poi tok lang) w))) ->
  mutated_element (call ev) = Some element ->
  let osmGateway := CreateOsmGateway (_httpGatewayFactory this) tok in
  let id := PointOfInterestExtended.Id poi in
  exists feature w1 fetched w2,
    GetPointOfInterestById (_elasticSearchGateway this) id Sources.OSM w
    = (Ok feature, w1) /\
    fetch_operation osmGateway (Feature.Geometry_ feature) id w1 = (Ok fetched, w2) /\
    UpdatePointOfInterest_tags this poi feature lang (CompleteOsmGeo.Tags fetched)
    = (Ok tt, CompleteOsmGeo.Tags element).
Proof.
  intros Hin Hel osmGateway id.
  destruct (run (UpdatePointOfInterest this poi tok lang) w) as [r s] eqn:E.
  apply UpdatePointOfInterest_log in E. cbv zeta in E. simpl in Hin.
  destruct E as [H|(feature & w1 & El & [H|(fetched & w2 & Ef & [H|(tags & Et & [H|(cs & H)])])])];
    [| | | |destruct H as [H|[H|[H|H]]]];
    read_log;
    match goal with H : log s = _ |- _ => rewrite H in Hin end;
    read_log;
    try (destruct (Feature.Geometry_ feature); discriminate);
    injection Hel as <-; exists feature, w1, fetched, w2; auto.
Qed.

(** C9: in update the icon mapping is applied if and only if the icon of
    the submitted point differs from the icon stored on the feature fetched
    from the search index.  With the same icon the keys of the vocabulary keep
    what they held (less the empty values), so that no [natural=peak] is
    appended for an unchanged "icon-peak"; with another icon, the tag of the
    new icon is added when its key is free, and the [Add] of the mapping
    throws when it is not.  The element handed to the gateway carries the
    tags so obtained. *)
Theorem icon_mapping_iff_icon_changed poi feature lang stored :
  attribute (Feature.Attributes feature) FeatureAttributes.ICON = Ok stored ->
  let icon := PointOfInterestExtended.Icon poi in
  (forall tags,
      unique_keys tags ->
      let tagging := UpdatePointOfInterest_tags this poi feature lang tags in
      (icon = Some stored ->
       exists tags',
         tagging = (Ok tt, tags') /\
         forall k, category_key k -> GetValue tags' k = stripped (GetValue tags k)) /\
      (icon <> Some stored ->
       forall key value,
         icon_case icon = Some (key, value) ->
         (GetValue tags key = None ->
          exists tags',
            tagging = (Ok tt, tags') /\ GetValue tags' key = Some (Some value)) /\
         (GetValue tags key <> None -> fst tagging = Raise ArgumentException))) /\
  (forall tok w w1,
      let osmGateway := CreateOsmGateway (_httpGatewayFactory this) tok in
      let id := PointOfInterestExtended.Id poi in
      fetches_unique_keys osmGateway ->
      GetPointOfInterestById (_elasticSearchGateway this) id Sources.OSM w
      = (Ok feature, w1) ->
      forall ev element,
        In ev (log (snd (run (UpdatePointOfInterest this poi tok lang) w))) ->
        mutated_element (call ev) = Some element ->
        exists fetched w2,
          fetch_operation osmGateway (Feature.Geometry_ feature) id w1
          = (Ok fetched, w2) /\
          (icon = Some stored ->
           forall k, category_key k ->
             GetValue (CompleteOsmGeo.Tags element) k
             = stripped (GetValue (CompleteOsmGeo.Tags fetched) k)) /\
          (icon <> Some stored ->
           forall key value,
             icon_case icon = Some (key, value) ->
             GetValue (CompleteOsmGeo.Tags element) key = Some (Some value))).
Proof.
  intros Hs icon. split.
  - intros tags Hu. now apply UpdatePointOfInterest_tags_icon.
  - intros tok w w1 osmGateway id Hgw Hlookup ev element Hin Hel.
    destruct (UpdatePointOfInterest_handed _ _ _ _ _ Hin Hel)
      as (feature' & w1' & fetched & w2 & El & Ef & Et).
    fold id in El. rewrite Hlookup in El. injection El as <- <-.
    exists fetched, w2. split; [exact Ef|].
    pose proof (Hgw _ _ _ _ _ Ef) as Hu.
    destruct (UpdatePointOfInterest_tags_icon poi feature lang Hu Hs) as [Hsame Hdiff].
    fold icon in Hsame, Hdiff. split.
    + intros Heq. destruct (Hsame Heq) as (tags' & E & H).
      rewrite Et in E. injection E as <-. exact H.
    + intros Hne key value Hcase.
      destruct (Hdiff Hne key value Hcase) as [Hfree Hheld].
      destruct (GetValue (CompleteOsmGeo.Tags fetched) key) eqn:Hg.
      * rewrite Et in Hheld. discriminate Hheld. discriminate.
      * destruct (Hfree eq_refl) as (tags' & E & H).
        rewrite Et in E. now injection E as <-.
Qed.

End IconMapping.

Lemma meron_node_unique_keys : unique_keys (CompleteOsmGeo.Tags meron_node).
Proof. unfold unique_keys. simpl. repeat constructor. simpl. tauto. Qed.

Lemma viewpoint_tags_unique_keys : unique_keys viewpoint_tags.
Proof. unfold unique_keys. simpl. repeat constructor. simpl. tauto. Qed.

Lemma icon_mapping_iff_icon_changed_witness :
  (exists tags',
      UpdatePointOfInterest_tags he_adapter peak_poi peak_feature en
                                 (CompleteOsmGeo.Tags meron_node)
      = (Ok tt, tags') /\
      GetValue tags' (lit "natural") = None) /\
  (forall tags,
      In tags (handed_tags
                 (log (snd (run (UpdatePointOfInterest
                                   (scripted_adapter no_faults meron_node viewpoint_feature he)
                                   peak_poi some_token en) 0)))) ->
      GetValue tags (lit "natural") = Some (Some (lit "peak"))).
Proof.
  split.
  - destruct (proj1 (proj1 (icon_mapping_iff_icon_changed
                              he_adapter peak_poi peak_feature en eq_refl)
                           (CompleteOsmGeo.Tags meron_node) meron_node_unique_keys)
                    eq_refl)
      as (tags' & E & H).
    exists tags'. split; [exact E|].
    rewrite (H (lit "natural")); [reflexivity|].
    right; left; reflexivity.
  - intros tags Hin. simpl in Hin. destruct Hin as [<-|[]].
    destruct (proj2 (icon_mapping_iff_icon_changed
                       (scripted_adapter no_faults meron_node viewpoint_feature he)
                       peak_poi viewpoint_feature en eq_refl)
                    some_token 0 0
                    (scripted_osm_unique_keys no_faults meron_node meron_node_unique_keys)
                    eq_refl
                    (ok (OsmUpdateElement (lit "7")
                           (CompleteOsmGeo.with_Tags meron_node
                              [mkTag (lit "name") (Some (lit "Mount Meron"));
                               mkTag (lit "natural") (Some (lit "peak"))])))
                    _
                    (or_intror (or_intror (or_intror (or_introl eq_refl))))
                    eq_refl)
      as (fetched & w2 & _ & _ & H).
    apply (H ltac:(discriminate) (lit "natural") (lit "peak") eq_refl).
Defined.

(** * The icon mapping only appends *)

Lemma UpdateTagsByIcon_appends icon tags :
  exists appended,
    snd (UpdateTagsByIcon icon tags) = tags ++ appended /\
    (appended = [] \/
     exists key value,
       icon_case icon = Some (key, value) /\
       ContainsKey tags key = false /\
       appended = [mkTag key (Some value)]).
Proof.
  unfold UpdateTagsByIcon.
  destruct (icon_case icon) as [[key value]|].
  - unfold Add. destruct (ContainsKey tags key) eqn:Hc; simpl.
    + exists []. rewrite app_nil_r. auto.
    + exists [mkTag key (Some value)]. split; [reflexivity|].
      right. exists key, value. auto.
  - exists []. simpl. rewrite app_nil_r. auto.
Qed.

Lemma UpdateTagsByIcon_keeps icon tags k v :
  GetValue tags k = Some v ->
  GetValue (snd (UpdateTagsByIcon icon tags)) k = Some v.
Proof.
  intros H. destruct (UpdateTagsByIcon_appends icon tags) as (appended & -> & _).
  now rewrite GetValue_app, H.
Qed.

(** C10: the icon mapping only appends.  Whatever the tag set and the icon,
    the set after [UpdateTagsByIcon] is the set before it with at most one
    tag added at the end, so every tag present before is present after with
    its value; through a whole update, a category tag with a value is never
    removed; and the tag of the previous icon can stay next to the tag of the
    new one. *)
Theorem UpdateTagsByIcon_only_appends :
  (forall icon tags,
      let tags' := snd (UpdateTagsByIcon icon tags) in
      (exists appended, tags' = tags ++ appended /\ List.length appended <= 1) /\
      (forall t, In t tags -> In t tags') /\
      (forall k v, GetValue tags k = Some v -> GetValue tags' k = Some v)) /\
  (forall World (this : OsmPointsOfInterestAdapter World) poi feature lang tags tags',
      unique_keys tags ->
      UpdatePointOfInterest_tags this poi feature lang tags = (Ok tt, tags') ->
      forall k v,
        category_key k -> GetValue tags k = Some v ->
        IsNullOrWhiteSpace v = false ->
        GetValue tags' k = Some v) /\
  UpdateTagsByIcon (Some (lit "icon-peak")) viewpoint_tags
  = (Ok tt, [mkTag (lit "tourism") (Some (lit "viewpoint"));
             mkTag (lit "natural") (Some (lit "peak"))]).
Proof.
  split; [|split].
  - intros icon tags tags'. unfold tags'.
    destruct (UpdateTagsByIcon_appends icon tags) as (appended & E & Happ).
    split; [|split].
    + exists appended. split; [exact E|].
      destruct Happ as [->|(key & value & _ & _ & ->)]; simpl; lia.
    + intros t Ht. rewrite E. apply in_or_app. now left.
    + intros k v. apply UpdateTagsByIcon_keeps.
  - intros World this poi feature lang tags tags' Hu Htags k v Hk Hv Hnb.
    destruct (UpdatePointOfInterest_tags_steps _ _ _ _ Hu Htags)
      as (_ & _ & _ & _ & stored & _ & _ & _ & _ & _ & Hs & _).
    destruct (UpdatePointOfInterest_tags_writes this poi feature lang Hu)
      as (t4 & Hu4 & Hframe & Hrun).
    rewrite (Hrun stored Hs) in Htags.
    apply bind_Ok in Htags as ([] & t5 & E5 & Hstrip).
    assert (H5 : GetValue t5 k = Some v /\ unique_keys t5).
    { destruct (negb (cstring_eqb (PointOfInterestExtended.Icon poi) (Some stored))).
      - split.
        + replace t5 with (snd (UpdateTagsByIcon (PointOfInterestExtended.Icon poi) t4))
            by now rewrite E5.
          apply UpdateTagsByIcon_keeps. now rewrite Hframe.
        + eapply UpdateTagsByIcon_unique_keys; eauto.
      - injection E5 as <-. split; [now rewrite Hframe | exact Hu4]. }
    destruct H5 as [H5 Hu5].
    rewrite RemoveEmptyTags_filter in Hstrip by exact Hu5. injection Hstrip as <-.
    rewrite GetValue_filter by exact Hu5. rewrite H5. simpl. now rewrite Hnb.
  - reflexivity.
Qed.

Lemma UpdateTagsByIcon_only_appends_witness :
  exists tags',
    UpdatePointOfInterest_tags he_adapter peak_poi viewpoint_feature en viewpoint_tags
    = (Ok tt, tags') /\
    GetValue tags' (lit "tourism") = Some (Some (lit "viewpoint")) /\
    GetValue tags' (lit "natural") = Some (Some (lit "peak")).
Proof.
  eexists. split; [reflexivity|]. split; [|reflexivity].
  apply (proj1 (proj2 UpdateTagsByIcon_only_appends)
           nat he_adapter peak_poi viewpoint_feature en viewpoint_tags).
  - exact viewpoint_tags_unique_keys.
  - reflexivity.
  - left; reflexivity.
  - reflexivity.
  - reflexivity.
Defined.

(** * Where the adapter departs from its specification *)

(** C3: update writes the description of the submitted point under the name
    tag, where the specification (and create) write its title.  The tags of an
    update do not depend on the title at all; for a point titled
    "Mount Tabor" and described as "A round hill", the element handed to the
    gateway is named "A round hill". *)
Theorem update_names_by_description :
  (forall World (this : OsmPointsOfInterestAdapter World) poi feature lang title,
      UpdatePointOfInterest_tags this (retitled poi title) feature lang
      = UpdatePointOfInterest_tags this poi feature lang) /\
  handed_tags (log (snd (run (UpdatePointOfInterest en_adapter tabor_poi some_token en) 0)))
  = [[mkTag (lit "name") (Some (lit "A round hill"));
      mkTag (lit "description") (Some (lit "A round hill"));
      mkTag (lit "description:en") (Some (lit "A round hill"))]].
Proof.
  split; [reflexivity | vm_compute; reflexivity].
Qed.

(** C4: the language-qualified key is not written on every call.  When the
    resolved language is the default one and the base key is already in the
    set, [SetTagByLanguage] replaces the base key and returns: here the name
    is replaced and no [name:he] tag is written. *)
Theorem SetTagByLanguage_returns_after_base_key :
  SetTagByLanguage he FeatureAttributes.NAME (Some kinneret) en
                   [mkTag (lit "name") (Some (lit "Kinneret"))]
  = (Ok tt, [mkTag (lit "name") (Some kinneret)]) /\
  SetTagByLanguage he FeatureAttributes.NAME (Some kinneret) en []
  = (Ok tt, [mkTag (lit "name") (Some kinneret);
             mkTag (lit "name:he") (Some kinneret)]).
Proof.
  split; reflexivity.
Qed.

(** C7: the append of the icon vocabulary does not replace the value of a
    key that is already in the set.  On a set that holds [natural=tree] the
    mapping of "icon-peak" throws and leaves the set as it was; the update of
    such an element to that icon ends with the exception, before any
    changeset is opened. *)
Theorem UpdateTagsByIcon_does_not_replace :
  UpdateTagsByIcon (Some (lit "icon-peak")) (CompleteOsmGeo.Tags tree_node)
  = (Raise ArgumentException, [mkTag (lit "natural") (Some (lit "tree"))]) /\
  let updated :=
    run (UpdatePointOfInterest
           (scripted_adapter no_faults tree_node tree_feature he)
           peak_poi some_token en) 0 in
  fst updated = Raise ArgumentException /\
  attempted is_open (log (snd updated)) = false /\
  attempted is_mutation (log (snd updated)) = false.
Proof.
  split; [reflexivity|]. cbv zeta. repeat split; vm_compute; reflexivity.
Qed.

(** * The runs of create and update, call by call *)

Section Runs.

Variable World : Type.
Variable this : OsmPointsOfInterestAdapter World.

Lemma created_tags_Ok poi lang :
  AddPointOfInterest_tags this poi lang [] = (Ok tt, created_tags this poi lang).
Proof.
  destruct (AddPointOfInterest_tags_steps this poi lang)
    as (t2 & t3 & t4 & _ & _ & _ & _ & E).
  unfold created_tags. now rewrite E.
Qed.

Lemma UpdateElasticSearch_run osm name s :
  UpdateElasticSearch this osm name s =
  match name with
  | None => (Raise ArgumentNullException, s)
  | Some name =>
      match derived_feature this osm name with
      | None => (Ok tt, s)
      | Some feature =>
          match UpdateNamesData (_elasticSearchGateway this) feature (world s) with
          | (r, w) => (r, mkSt w (log s ++ [mkEvent (EsUpdateNamesData feature) (outcome r)]))
          end
      end
  end.
Proof.
  unfold UpdateElasticSearch, derived_feature. destruct name as [name|]; [|reflexivity].
  destruct (match map snd _ with [] => None | first :: _ => hd_error first end);
    reflexivity.
Qed.

Lemma AddPointOfInterest_run poi tok lang w :
  let osmGateway := CreateOsmGateway (_httpGatewayFactory this) tok in
  let comment := lit "Add POI interface from IHM site." in
  let opening := OsmCreateChangeset comment in
  let node := created_node this poi lang in
  run (AddPointOfInterest this poi tok lang) w =
  match CreateChangeset osmGateway comment w with
  | (Raise e, w1) => (Raise e, mkSt w1 [ko opening e])
  | (Ok cs, w1) =>
      let creation := OsmCreateElement cs node in
      let closing := OsmCloseChangeset cs in
      match CreateElement osmGateway cs node w1 with
      | (Raise e, w2) => (Raise e, mkSt w2 [ok opening; ko creation e])
      | (Ok id, w2) =>
          match long_Parse id with
          | Raise e => (Raise e, mkSt w2 [ok opening; ok creation])
          | Ok n =>
              match CloseChangeset osmGateway cs w2 with
              | (Raise e, w3) =>
                  (Raise e, mkSt w3 [ok opening; ok creation; ko closing e])
              | (Ok _, w3) =>
                  UpdateElasticSearch this (CompleteOsmGeo.with_Id node n)
                    (PointOfInterestExtended.Title poi)
                    (mkSt w3 [ok opening; ok creation; ok closing])
              end
          end
      end
  end.
Proof.
  intros osmGateway comment opening node.
  unfold run, AddPointOfInterest. cbv zeta. fold osmGateway comment.
  rewrite bind_invoke. cbn [world log app].
  destruct (CreateChangeset _ _ _) as [[cs|e] w1]; [|reflexivity].
  rewrite bind_mutate, created_tags_Ok.
  rewrite bind_invoke. cbn [world log app].
  change (CompleteOsmGeo.make Node None
            (Some (LatLng.lat (PointOfInterestExtended.Location poi)))
            (Some (LatLng.lng (PointOfInterestExtended.Location poi)))
            (created_tags this poi lang)) with node.
  destruct (CreateElement _ _ _ _) as [[id|e] w2]; [|reflexivity].
  rewrite bind_lift.
  destruct (long_Parse id) as [n|e]; [|reflexivity].
  rewrite bind_invoke. cbn [world log app].
  destruct (CloseChangeset _ _ _) as [[[]|e] w3]; reflexivity.
Qed.

Lemma UpdatePointOfInterest_run poi tok lang w :
  let osmGateway := CreateOsmGateway (_httpGatewayFactory this) tok in
  let id := PointOfInterestExtended.Id poi in
  let lookup := EsGetPointOfInterestById id Sources.OSM in
  let comment := lit "Update POI interface from IHM site." in
  let opening := OsmCreateChangeset comment in
  run (UpdatePointOfInterest this poi tok lang) w =
  match GetPointOfInterestById (_elasticSearchGateway this) id Sources.OSM w with
  | (Raise e, w1) => (Raise e, mkSt w1 [ko lookup e])
  | (Ok feature, w1) =>
      let fetching := fetch_call (Feature.Geometry_ feature) id in
      match fetch_operation osmGateway (Feature.Geometry_ feature) id w1 with
      | (Raise e, w2) => (Raise e, mkSt w2 [ok lookup; ko fetching e])
      | (Ok fetched, w2) =>
          match UpdatePointOfInterest_tags this poi feature lang
                  (CompleteOsmGeo.Tags fetched) with
          | (Raise e, _) => (Raise e, mkSt w2 [ok lookup; ok fetching])
          | (Ok _, tags) =>
              let element := CompleteOsmGeo.with_Tags fetched tags in
              match CreateChangeset osmGateway comment w2 with
              | (Raise e, w3) =>
                  (Raise e, mkSt w3 [ok lookup; ok fetching; ko opening e])
              | (Ok cs, w3) =>
                  let updating := OsmUpdateElement cs element in
                  let closing := OsmCloseChangeset cs in
                  match UpdateElement osmGateway cs element w3 with
                  | (Raise e, w4) =>
                      (Raise e, mkSt w4 [ok lookup; ok fetching; ok opening;
                                         ko updating e])
                  | (Ok _, w4) =>
                      match CloseChangeset osmGateway cs w4 with
                      | (Raise e, w5) =>
                          (Raise e, mkSt w5 [ok lookup; ok fetching; ok opening;
                                             ok updating; ko closing e])
                      | (Ok _, w5) =>
                          UpdateElasticSearch this element
                            (PointOfInterestExtended.Title poi)
                            (mkSt w5 [ok lookup; ok fetching; ok opening;
                                      ok updating; ok closing])
                      end
                  end
              end
          end
      end
  end.
Proof.
  intros osmGateway id lookup comment opening.
  unfold run, UpdatePointOfInterest. cbv zeta. fold osmGateway id comment.
  rewrite bind_invoke. cbn [world log app].
  destruct (GetPointOfInterestById _ _ _ _) as [[feature|e] w1]; [|reflexivity].
  rewrite fetch_as_invoke, bind_invoke. cbn [world log app].
  destruct (fetch_operation _ _ _ _) as [[fetched|e] w2]; [|reflexivity].
  rewrite bind_mutate.
  destruct (UpdatePointOfInterest_tags _ _ _ _ _) as [[[]|e] tags]; [|reflexivity].
  rewrite bind_invoke. cbn [world log app].
  destruct (CreateChangeset _ _ _) as [[cs|e] w3]; [|reflexivity].
  rewrite bind_invoke. cbn [world log app].
  destruct (UpdateElement _ _ _ _) as [[[]|e] w4]; [|reflexivity].
  rewrite bind_invoke. cbn [world log app].
  destruct (CloseChangeset _ _ _) as [[[]|e] w5]; reflexivity.
Qed.

End Runs.

(** * More on the tag helpers *)

Lemma replace_value_length tags key value :
  List.length (replace_value tags key value) = List.length tags.
Proof.
  induction tags as [|t rest IH]; simpl; [reflexivity|].
  destruct (str_eqb (Key t) key); simpl; congruence.
Qed.

Lemma replace_value_same tags key value :
  GetValue tags key = Some value -> replace_value tags key value = tags.
Proof.
  induction tags as [|[k v] rest IH]; simpl; [reflexivity|].
  destruct (str_eqb k key).
  - now intros [= ->].
  - intros H. now rewrite IH.
Qed.

Lemma GetValue_Some_ContainsKey tags key v :
  GetValue tags key = Some v -> ContainsKey tags key = true.
Proof.
  intros H. destruct (ContainsKey tags key) eqn:E; [reflexivity|].
  apply GetValue_ContainsKey in E. congruence.
Qed.

Lemma SetItem_run key value tags :
  SetItem key value tags =
  (Ok tt, if ContainsKey tags key then replace_value tags key value
          else tags ++ [mkTag key value]).
Proof. unfold SetItem. now destruct (ContainsKey tags key). Qed.

(** The set that [SetTagByLanguage] leaves, case by case. *)
Lemma SetTagByLanguage_run default key value language tags :
  let resolved := GetLanguage value language in
  let keyWithLanguage := key ++ lit ":" ++ or_empty resolved in
  let write k t :=
    if ContainsKey t k then replace_value t k value else t ++ [mkTag k value] in
  SetTagByLanguage default key value language tags =
  (Ok tt,
   if cstring_eqb resolved default then
     if ContainsKey tags key then replace_value tags key value
     else write keyWithLanguage (tags ++ [mkTag key value])
   else write keyWithLanguage tags).
Proof.
  intros resolved kl write. unfold SetTagByLanguage, bind, get.
  fold resolved. fold kl.
  assert (qualified : forall t,
    (if ContainsKey t kl then SetItem kl value else Add kl value) t
    = (Ok tt, write kl t)).
  { intros t. unfold write. destruct (ContainsKey t kl) eqn:E.
    - rewrite SetItem_run. now rewrite E.
    - unfold Add. now rewrite E. }
  destruct (cstring_eqb resolved default).
  - destruct (ContainsKey tags key) eqn:E.
    + rewrite SetItem_run. now rewrite E.
    + unfold Add at 1. rewrite E. apply qualified.
  - apply qualified.
Qed.

(** X1: [SetTagByLanguage] never throws, whatever the tag set, and never
    removes a tag: every key of the set is still in it afterwards, and the set
    grows by two entries at most. *)
Theorem SetTagByLanguage_never_throws_nor_removes
    (default : cstring) (key : str) (value language : cstring) (tags : TagsCollection) :
  let result := SetTagByLanguage default key value language tags in
  fst result = Ok tt /\
  forallb (fun t => ContainsKey (snd result) (Key t)) tags = true /\
  List.length tags <= List.length (snd result) <= List.length tags + 2.
Proof.
  cbv zeta. rewrite SetTagByLanguage_run. cbn [fst snd].
  set (kl := key ++ lit ":" ++ or_empty (GetLanguage value language)).
  assert (Hkeys : forall t k v k',
             ContainsKey (replace_value t k v) k' = ContainsKey t k').
  { intros t k v k'. unfold ContainsKey.
    induction t as [|x rest IH]; simpl; [reflexivity|].
    destruct (str_eqb (Key x) k); simpl; [reflexivity|].
    now rewrite IH. }
  split; [reflexivity|]. split.
  - apply forallb_forall. intros t Ht.
    assert (Hk : ContainsKey tags (Key t) = true).
    { apply ContainsKey_In. now apply in_map. }
    destruct (cstring_eqb _ default), (ContainsKey tags key);
      repeat match goal with
             | |- context [if ?b then _ else _] => destruct b
             end;
      rewrite ?Hkeys, ?ContainsKey_app, ?Hk; reflexivity.
  - destruct (cstring_eqb _ default), (ContainsKey tags key);
      repeat match goal with
             | |- context [if ?b then _ else _] => destruct b
             end;
      rewrite ?replace_value_length, ?length_app; simpl; lia.
Qed.

(** X2: what [SetTagByLanguage] writes.  With the resolved language equal to
    the default one, the base key holds the value afterwards, and the
    language-qualified key holds it too when the base key was not in the set
    (it is left alone when the base key was there); with another resolved
    language the qualified key holds the value and the base key is left
    alone.  No other key changes. *)
Theorem SetTagByLanguage_read_after_write
    (default : cstring) (key : str) (value language : cstring) (tags : TagsCollection) :
  let resolved := GetLanguage value language in
  let keyWithLanguage := key ++ lit ":" ++ or_empty resolved in
  let after := snd (SetTagByLanguage default key value language tags) in
  GetValue after key =
    (if cstring_eqb resolved default then Some value else GetValue tags key) /\
  GetValue after keyWithLanguage =
    (if cstring_eqb resolved default && ContainsKey tags key
     then GetValue tags keyWithLanguage else Some value) /\
  forall k, k <> key -> k <> keyWithLanguage -> GetValue after k = GetValue tags k.
Proof.
  intros resolved kl after.
  destruct (SetTagByLanguage default key value language tags) as [r tags'] eqn:E.
  unfold after. cbn [snd].
  pose proof (SetTagByLanguage_lookup _ _ _ _ _ E) as L. cbv zeta in L.
  fold resolved in L. fold kl in L.
  assert (Hne : str_eqb kl key = false).
  { apply str_eqb_neq. apply qualified_key_longer. }
  assert (Hne' : str_eqb key kl = false).
  { apply str_eqb_neq. intros H. symmetry in H. revert H. apply qualified_key_longer. }
  split; [|split].
  - rewrite L, Hne, str_eqb_refl.
    now destruct (cstring_eqb resolved default), (ContainsKey tags key).
  - rewrite L, Hne', str_eqb_refl.
    now destruct (cstring_eqb resolved default), (ContainsKey tags key).
  - intros k Hk Hkl. rewrite L.
    assert (H1 : str_eqb key k = false) by (apply str_eqb_neq; congruence).
    assert (H2 : str_eqb kl k = false) by (apply str_eqb_neq; congruence).
    rewrite H1, H2.
    now destruct (cstring_eqb resolved default), (ContainsKey tags key).
Qed.

Lemma SetTagByLanguage_read_after_write_witness :
  let after :=
    snd (SetTagByLanguage he (lit "name") (Some (lit "Kinneret")) he
           [mkTag (lit "ele") (Some (lit "-212"))]) in
  GetValue after (lit "ele") = Some (Some (lit "-212")) /\
  GetValue after (lit "name:en") = Some (Some (lit "Kinneret")) /\
  GetValue after (lit "name") = None.
Proof.
  pose proof (SetTagByLanguage_read_after_write he (lit "name") (Some (lit "Kinneret")) he
                [mkTag (lit "ele") (Some (lit "-212"))]) as (Hbase & Hqualified & Hother).
  split; [|split].
  - apply Hother; discriminate.
  - exact Hqualified.
  - exact Hbase.
Defined.

Lemma write_again tags k value :
  let write t :=
    if ContainsKey t k then replace_value t k value else t ++ [mkTag k value] in
  GetValue (write tags) k = Some value /\ ContainsKey (write tags) k = true.
Proof.
  cbv zeta beta. destruct (ContainsKey tags k) eqn:E.
  - assert (H : GetValue (replace_value tags k value) k = Some value)
      by now apply GetValue_replace_value_same.
    split; [exact H | eapply GetValue_Some_ContainsKey; eauto].
  - assert (H : GetValue (tags ++ [mkTag k value]) k = Some value).
    { rewrite GetValue_snoc by exact E. now rewrite str_eqb_refl. }
    split; [exact H | eapply GetValue_Some_ContainsKey; eauto].
Qed.

(** X3: [SetTagByLanguage] is idempotent: a second call with the same key,
    value and language leaves the tag set of the first call as it is. *)
Theorem SetTagByLanguage_idempotent
    (default : cstring) (key : str) (value language : cstring) (tags : TagsCollection) :
  let once := snd (SetTagByLanguage default key value language tags) in
  SetTagByLanguage default key value language once = (Ok tt, once).
Proof.
  cbv zeta. rewrite (SetTagByLanguage_run default key value language tags).
  cbv zeta. cbn [snd].
  set (resolved := GetLanguage value language).
  set (kl := key ++ lit ":" ++ or_empty resolved).
  rewrite SetTagByLanguage_run. cbv zeta. fold resolved. fold kl.
  assert (Hne : str_eqb key kl = false).
  { apply str_eqb_neq. intros H. symmetry in H. revert H. apply qualified_key_longer. }
  destruct (cstring_eqb resolved default).
  - destruct (ContainsKey tags key) eqn:Ek.
    + destruct (write_again tags key value) as [Hg Hc]. cbv zeta beta in Hg, Hc.
      rewrite Ek in Hg, Hc. rewrite Hc. now rewrite replace_value_same.
    + set (t1 := tags ++ [mkTag key value]).
      assert (Hg1 : GetValue t1 key = Some value).
      { unfold t1. rewrite GetValue_snoc by exact Ek. now rewrite str_eqb_refl. }
      assert (Hg : GetValue (if ContainsKey t1 kl then replace_value t1 kl value
                             else t1 ++ [mkTag kl value]) key = Some value).
      { destruct (ContainsKey t1 kl).
        - rewrite GetValue_replace_value_other; [exact Hg1|].
          apply str_eqb_neq. exact Hne.
        - now rewrite GetValue_app, Hg1. }
      rewrite (GetValue_Some_ContainsKey _ _ Hg). now rewrite replace_value_same.
  - destruct (write_again tags kl value) as [Hg Hc]. cbv zeta beta in Hg, Hc.
    rewrite Hc. now rewrite replace_value_same.
Qed.

(** X4: language detection goes by the first character that is a Latin
    letter or a character of the Hebrew range: digits, punctuation and other
    scripts before it do not count, what follows it does not count either,
    and a value with no such character is not Hebrew.  So a value that is not
    blank resolves to "he" when that character is Hebrew and to "en" in every
    other case. *)
Theorem language_by_first_letter (words : str) (language : cstring) :
  HasHebrewCharacters words =
    match first_letter words with
    | Some c => is_hebrew c
    | None => false
    end /\
  GetLanguage (Some words) language =
    if forallb IsWhiteSpace words then language
    else match first_letter words with
         | Some c => if is_hebrew c then Some (lit "he") else Some (lit "en")
         | None => Some (lit "en")
         end.
Proof.
  assert (H : HasHebrewCharacters words =
              match first_letter words with
              | Some c => is_hebrew c
              | None => false
              end).
  { unfold first_letter. induction words as [|c rest IH]; simpl; [reflexivity|].
    destruct (is_hebrew c) eqn:Eh; simpl; [now rewrite Eh|].
    destruct (is_latin_letter c); simpl; [now rewrite Eh | exact IH]. }
  split; [exact H|].
  unfold GetLanguage. simpl IsNullOrWhiteSpace. simpl or_empty. rewrite H.
  destruct (forallb IsWhiteSpace words); [reflexivity|].
  destruct (first_letter words) as [c|]; [|reflexivity].
  now destruct (is_hebrew c).
Qed.

(** X5: [RemoveEmptyTags] removes nothing else: on a tag set with one entry
    per key it returns, leaving exactly the tags whose value is not blank, in
    their order; run again it changes nothing; and a set with no blank value
    is left as it is. *)
Theorem RemoveEmptyTags_keeps_the_rest (tags : TagsCollection) :
  unique_keys tags ->
  RemoveEmptyTags tags = (Ok tt, filter not_blank tags) /\
  RemoveEmptyTags (filter not_blank tags) = (Ok tt, filter not_blank tags) /\
  (forallb not_blank tags = true -> RemoveEmptyTags tags = (Ok tt, tags)).
Proof.
  intros Hu.
  assert (Hid : forall l, forallb not_blank l = true -> filter not_blank l = l).
  { induction l as [|t rest IH]; simpl; [reflexivity|].
    destruct (not_blank t); simpl; [|discriminate].
    intros H. now rewrite IH. }
  split; [|split].
  - now apply RemoveEmptyTags_filter.
  - rewrite RemoveEmptyTags_filter by now apply unique_keys_filter.
    f_equal. apply Hid. apply forallb_forall. intros t Ht.
    apply filter_In in Ht. tauto.
  - intros Hnb. rewrite RemoveEmptyTags_filter by exact Hu. now rewrite Hid.
Qed.

Lemma RemoveEmptyTags_keeps_the_rest_witness :
  RemoveEmptyTags
    [mkTag (lit "note") (Some (lit " ")); mkTag (lit "name") (Some (lit "Old name"));
     mkTag (lit "image") None; mkTag (lit "ele") (Some (lit "588"))]
  = (Ok tt, [mkTag (lit "name") (Some (lit "Old name"));
             mkTag (lit "ele") (Some (lit "588"))]).
Proof.
  apply (proj1 (@RemoveEmptyTags_keeps_the_rest
                  [mkTag (lit "note") (Some (lit " "));
                   mkTag (lit "name") (Some (lit "Old name"));
                   mkTag (lit "image") None; mkTag (lit "ele") (Some (lit "588"))]
                  ltac:(unfold unique_keys; simpl; repeat constructor; simpl;
                        intuition discriminate))).
Defined.

(** X6: a blank value clears.  After [SetTagByLanguage] with a blank value,
    followed by [RemoveEmptyTags]: when the requested language is the default
    one the base key is gone, and the language-qualified key is gone as well
    unless the base key was in the set (then the qualified key keeps its
    value); when the requested language is not the default one the qualified
    key is gone and the base key keeps its value.  Every key other than these
    two keeps its value.  A value that is kept is dropped all the same when it
    is blank. *)
Theorem blank_value_clears_the_tag
    (default : cstring) (key : str) (value language : cstring) (tags : TagsCollection) :
  unique_keys tags ->
  IsNullOrWhiteSpace value = true ->
  let keyWithLanguage := key ++ lit ":" ++ or_empty language in
  exists after,
    (SetTagByLanguage default key value language ;; RemoveEmptyTags)%monad tags
    = (Ok tt, after) /\
    GetValue after key =
      (if cstring_eqb language default then None else stripped (GetValue tags key)) /\
    GetValue after keyWithLanguage =
      (if cstring_eqb language default && ContainsKey tags key
       then stripped (GetValue tags keyWithLanguage) else None) /\
    forall k, k <> key -> k <> keyWithLanguage ->
              GetValue after k = stripped (GetValue tags k).
Proof.
  intros Hu Hblank kl.
  destruct (SetTagByLanguage default key value language tags) as [r t1] eqn:E.
  pose proof (SetTagByLanguage_Ok default key value language tags) as Hok.
  rewrite E in Hok. simpl in Hok. subst r.
  assert (Hu1 : unique_keys t1) by (eapply SetTagByLanguage_unique_keys; eauto).
  pose proof (SetTagByLanguage_lookup _ _ _ _ _ E) as L. cbv zeta in L.
  assert (Hres : GetLanguage value language = language).
  { unfold GetLanguage. now rewrite Hblank. }
  rewrite Hres in L. fold kl in L.
  assert (Hne : str_eqb kl key = false).
  { apply str_eqb_neq. apply qualified_key_longer. }
  assert (Hne' : str_eqb key kl = false).
  { apply str_eqb_neq. intros H. symmetry in H. revert H. apply qualified_key_longer. }
  exists (filter not_blank t1). split.
  { unfold bind. rewrite E. now apply RemoveEmptyTags_filter. }
  split; [|split].
  - rewrite GetValue_filter by exact Hu1. rewrite L, Hne, str_eqb_refl.
    destruct (cstring_eqb language default), (ContainsKey tags key);
      cbn [stripped]; rewrite ?Hblank; reflexivity.
  - rewrite GetValue_filter by exact Hu1. rewrite L, Hne', str_eqb_refl.
    destruct (cstring_eqb language default), (ContainsKey tags key);
      cbn [stripped andb]; rewrite ?Hblank; reflexivity.
  - intros k Hk Hkl. rewrite GetValue_filter by exact Hu1. rewrite L.
    assert (H1 : str_eqb key k = false) by (apply str_eqb_neq; congruence).
    assert (H2 : str_eqb kl k = false) by (apply str_eqb_neq; congruence).
    rewrite H1, H2.
    now destruct (cstring_eqb language default), (ContainsKey tags key).
Qed.

Lemma blank_value_clears_the_tag_witness :
  (exists after,
      (SetTagByLanguage he (lit "name") (Some (lit "")) he ;; RemoveEmptyTags)%monad
        [mkTag (lit "name:he") (Some kinneret); mkTag (lit "ele") (Some (lit "-212"))]
      = (Ok tt, after) /\
      GetValue after (lit "name") = None /\
      GetValue after (lit "name:he") = None /\
      GetValue after (lit "ele") = Some (Some (lit "-212"))) /\
  (exists after,
      (SetTagByLanguage he (lit "name") (Some (lit " ")) he ;; RemoveEmptyTags)%monad
        [mkTag (lit "name") (Some (lit "Kinneret")); mkTag (lit "name:he") (Some kinneret)]
      = (Ok tt, after) /\
      GetValue after (lit "name") = None /\
      GetValue after (lit "name:he") = Some (Some kinneret)).
Proof.
  split.
  - destruct (@blank_value_clears_the_tag he (lit "name") (Some (lit "")) he
                [mkTag (lit "name:he") (Some kinneret);
                 mkTag (lit "ele") (Some (lit "-212"))]
                ltac:(unfold unique_keys; simpl; repeat constructor; simpl;
                      intuition discriminate)
                eq_refl)
      as (after & E & Hbase & Hqualified & Hother).
    exists after. split; [exact E|]. split; [exact Hbase|]. split; [exact Hqualified|].
    rewrite Hother; [reflexivity | discriminate | discriminate].
  - destruct (@blank_value_clears_the_tag he (lit "name") (Some (lit " ")) he
                [mkTag (lit "name") (Some (lit "Kinneret"));
                 mkTag (lit "name:he") (Some kinneret)]
                ltac:(unfold unique_keys; simpl; repeat constructor; simpl;
                      intuition discriminate)
                eq_refl)
      as (after & E & Hbase & Hqualified & _).
    exists after. split; [exact E|]. split; [exact Hbase|]. exact Hqualified.
Defined.

(** * The order of the calls *)

Ltac create_paths :=
  rewrite AddPointOfInterest_run; cbv zeta;
  destruct (CreateChangeset _ _ _) as [[?cs|?e] ?w1] eqn:?Eopen;
  [ destruct (CreateElement _ _ _ _) as [[?id|?e] ?w2] eqn:?Ecreate;
    [ destruct (long_Parse _) as [?n|?e] eqn:?Eparse;
      [ destruct (CloseChangeset _ _ _) as [[[]|?e] ?w3] eqn:?Eclose;
        [ rewrite UpdateElasticSearch_run;
          destruct (PointOfInterestExtended.Title _) as [?name|] eqn:?Etitle;
          [ destruct (derived_feature _ _ _) as [?derived|] eqn:?Ederived;
            [ destruct (UpdateNamesData _ _ _) as [[[]|?e] ?w4] eqn:?Eupsert | ]
          | ]
        | ]
      | ]
    | ]
  | ].

Ltac update_paths :=
  rewrite UpdatePointOfInterest_run; cbv zeta;
  destruct (GetPointOfInterestById _ _ _ _) as [[?feature|?e] ?w1] eqn:?Elookup;
  [ destruct (fetch_operation _ _ _ _) as [[?fetched|?e] ?w2] eqn:?Efetch;
    [ destruct (UpdatePointOfInterest_tags _ _ _ _ _) as [[[]|?e] ?tags] eqn:?Etags;
      [ destruct (CreateChangeset _ _ _) as [[?cs|?e] ?w3] eqn:?Eopen;
        [ destruct (UpdateElement _ _ _ _) as [[[]|?e] ?w4] eqn:?Eupdate;
          [ destruct (CloseChangeset _ _ _) as [[[]|?e] ?w5] eqn:?Eclose;
            [ rewrite UpdateElasticSearch_run;
              destruct (PointOfInterestExtended.Title _) as [?name|] eqn:?Etitle;
              [ destruct (derived_feature _ _ _) as [?derived|] eqn:?Ederived;
                [ destruct (UpdateNamesData _ _ _) as [[[]|?e] ?w6] eqn:?Eupsert | ]
              | ]
            | ]
          | ]
        | ]
      | ]
    | ]
  | ].

Lemma kind_of_fetch_call geometry id : kind_of (fetch_call geometry id) = Fetch.
Proof. now destruct geometry. Qed.

(** X7: the calls of a create.  The first call is always the opening of a
    changeset with the comment of create; the calls follow the order open,
    create-element, close, upsert, each made once at most, and create makes no
    other call (it never reads from the index or from OSM); every call but
    the last one returned; and when the last call threw, create ends with its
    exception. *)
Theorem AddPointOfInterest_call_order
    World (this : OsmPointsOfInterestAdapter World) poi tok lang w :
  let (r, s) := run (AddPointOfInterest this poi tok lang) w in
  map call (firstn 1 (log s))
  = [OsmCreateChangeset (lit "Add POI interface from IHM site.")] /\
  prefix_of (kinds (log s)) create_protocol /\
  all_but_last_returned (log s) = true /\
  match last_thrown (log s) with
  | Some e => r = Raise e
  | None => True
  end.
Proof.
  create_paths; cbn [log app];
    (split; [reflexivity|]);
    (split; [eexists; reflexivity|]);
    (split; [reflexivity|]); exact I || reflexivity.
Qed.

(** X8: the calls of an update.  The first call is always the lookup of the
    point in the search index, by its id and the source of the adapter; the
    calls follow the order lookup, fetch, open, update-element, close, upsert,
    each made once at most; every call but the last one returned; and when the
    last call threw, update ends with its exception. *)
Theorem UpdatePointOfInterest_call_order
    World (this : OsmPointsOfInterestAdapter World) poi tok lang w :
  let (r, s) := run (UpdatePointOfInterest this poi tok lang) w in
  map call (firstn 1 (log s))
  = [EsGetPointOfInterestById (PointOfInterestExtended.Id poi) Sources.OSM] /\
  prefix_of (kinds (log s)) update_protocol /\
  all_but_last_returned (log s) = true /\
  match last_thrown (log s) with
  | Some e => r = Raise e
  | None => True
  end.
Proof.
  update_paths; cbn [log app];
    (split; [reflexivity|]);
    (split; [unfold kinds; cbn [map call ok ko]; rewrite ?kind_of_fetch_call; eexists; reflexivity|]);
    (split; [reflexivity|]); exact I || reflexivity.
Qed.

(** * What happens along a run *)

Ltac step_run :=
  match goal with
  | |- context [match GetPointOfInterestById ?g ?i ?o ?w with _ => _ end] =>
      destruct (GetPointOfInterestById g i o w) as [[?feature|?e] ?w1] eqn:?Elookup
  | |- context [match fetch_operation ?g ?k ?i ?w with _ => _ end] =>
      destruct (fetch_operation g k i w) as [[?fetched|?e] ?w2] eqn:?Efetch
  | |- context [match UpdatePointOfInterest_tags ?a ?p ?f ?l ?t with _ => _ end] =>
      destruct (UpdatePointOfInterest_tags a p f l t) as [[[]|?e] ?tags] eqn:?Etags
  | |- context [match CreateChangeset ?g ?c ?w with _ => _ end] =>
      destruct (CreateChangeset g c w) as [[?cs|?e] ?w3] eqn:?Eopen
  | |- context [match CreateElement ?g ?c ?n ?w with _ => _ end] =>
      destruct (CreateElement g c n w) as [[?id|?e] ?w4] eqn:?Ecreate
  | |- context [match UpdateElement ?g ?c ?n ?w with _ => _ end] =>
      destruct (UpdateElement g c n w) as [[[]|?e] ?w4] eqn:?Eupdate
  | |- context [match long_Parse ?i with _ => _ end] =>
      destruct (long_Parse i) as [?n|?e] eqn:?Eparse
  | |- context [match CloseChangeset ?g ?c ?w with _ => _ end] =>
      destruct (CloseChangeset g c w) as [[[]|?e] ?w5] eqn:?Eclose
  | |- context [UpdateElasticSearch _ _ _ _] => rewrite UpdateElasticSearch_run
  | |- context [match PointOfInterestExtended.Title ?p with _ => _ end] =>
      destruct (PointOfInterestExtended.Title p) as [?name|] eqn:?Etitle
  | |- context [match derived_feature ?a ?o ?n with _ => _ end] =>
      destruct (derived_feature a o n) as [?derived|] eqn:?Ederived
  | |- context [match UpdateNamesData ?g ?f ?w with _ => _ end] =>
      destruct (UpdateNamesData g f w) as [[[]|?e] ?w6] eqn:?Eupsert
  end.

Ltac run_paths := repeat step_run.

Ltac given H := rewrite H; cbv beta iota.

Ltac in_log :=
  repeat match goal with
         | H : In _ (_ :: _) |- _ => destruct H as [H|H]; [subst|]
         | H : In _ [] |- _ => destruct H
         end.

(** * The changeset is closed after the mutation *)

Section Closing.

Variable World : Type.
Variable this : OsmPointsOfInterestAdapter World.




End Closing.


(** X9: the mutation and the close of a run work in the changeset that the
    run opened: in create and in update, the changeset id of every
    create-element, update-element and close call is the id that the opening
    returned. *)
Theorem mutations_in_the_opened_changeset
    World (this : OsmPointsOfInterestAdapter World) poi tok lang :
  let osmGateway := CreateOsmGateway (_httpGatewayFactory this) tok in
  let id := PointOfInterestExtended.Id poi in
  (forall w cs w1,
      CreateChangeset osmGateway (lit "Add POI interface from IHM site.") w
      = (Ok cs, w1) ->
      forall ev changesetId,
        In ev (log (snd (run (AddPointOfInterest this poi tok lang) w))) ->
        changeset_of (call ev) = Some changesetId -> changesetId = cs) /\
  (forall w feature w1 fetched w2 cs w3,
      GetPointOfInterestById (_elasticSearchGateway this) id Sources.OSM w
      = (Ok feature, w1) ->
      fetch_operation osmGateway (Feature.Geometry_ feature) id w1 = (Ok fetched, w2) ->
      CreateChangeset osmGateway (lit "Update POI interface from IHM site.") w2
      = (Ok cs, w3) ->
      forall ev changesetId,
        In ev (log (snd (run (UpdatePointOfInterest this poi tok lang) w))) ->
        changeset_of (call ev) = Some changesetId -> changesetId = cs).
Proof.
  intros osmGateway id. split.
  - intros w cs w1 Hopen ev changesetId.
    rewrite AddPointOfInterest_run. cbv zeta. fold osmGateway. given Hopen.
    run_paths; cbn [snd log app]; intros Hin Hcs; in_log;
      cbn in Hcs; congruence.
  - intros w feature w1 fetched w2 cs w3 Hlookup Hfetch Hopen ev changesetId.
    rewrite UpdatePointOfInterest_run. cbv zeta. fold osmGateway id.
    given Hlookup. given Hfetch.
    destruct (UpdatePointOfInterest_tags _ _ _ _ _) as [[[]|e] tags];
      [given Hopen|];
      run_paths; cbn [snd log app]; intros Hin Hcs; in_log;
      try (destruct (Feature.Geometry_ feature)); cbn in Hcs; congruence.
Qed.

Lemma mutations_in_the_opened_changeset_witness :
  forallb (fun ev => match changeset_of (call ev) with
                     | Some changesetId => str_eqb changesetId (lit "7")
                     | None => true
                     end)
          (log (snd (run (UpdatePointOfInterest he_adapter peak_poi some_token en) 0)))
  = true.
Proof.
  apply forallb_forall. intros ev Hin.
  destruct (changeset_of (call ev)) as [changesetId|] eqn:E; [|reflexivity].
  apply str_eqb_eq.
  exact (proj2 (mutations_in_the_opened_changeset he_adapter peak_poi some_token en)
               0 plain_feature 0 empty_node 0 (lit "7") 1 eq_refl eq_refl eq_refl
               ev changesetId Hin E).
Defined.

(** X10: an id that is not a number.  When the gateway answers the
    create-element call with an id that [long.Parse] rejects, create ends with
    the exception of the parse right after that call: the element has been
    created, the changeset is not closed and the search index is not
    written. *)
Theorem AddPointOfInterest_unparsable_id
    World (this : OsmPointsOfInterestAdapter World) poi tok lang w cs w1 id w2 e :
  let osmGateway := CreateOsmGateway (_httpGatewayFactory this) tok in
  let comment := lit "Add POI interface from IHM site." in
  let node := created_node this poi lang in
  CreateChangeset osmGateway comment w = (Ok cs, w1) ->
  CreateElement osmGateway cs node w1 = (Ok id, w2) ->
  long_Parse id = Raise e ->
  run (AddPointOfInterest this poi tok lang) w
  = (Raise e, mkSt w2 [ok (OsmCreateChangeset comment); ok (OsmCreateElement cs node)]).
Proof.
  intros osmGateway comment node Hopen Hcreate Hparse.
  rewrite AddPointOfInterest_run. cbv zeta. fold osmGateway comment node.
  given Hopen. given Hcreate. now given Hparse.
Qed.

Lemma AddPointOfInterest_unparsable_id_witness :
  let outcome := run (AddPointOfInterest textual_id_adapter kinneret_poi some_token en) 0 in
  fst outcome = Raise FormatException /\
  kinds (log (snd outcome)) = [Open; Mutate] /\
  world (snd outcome) = 1.
Proof.
  cbv zeta.
  rewrite (@AddPointOfInterest_unparsable_id nat textual_id_adapter kinneret_poi
             some_token en 0 (lit "7") 1 (lit "node/42") 1 FormatException
             eq_refl eq_refl eq_refl).
  repeat split.
Defined.

(** X11: what create writes to the search index.  When the opening, the
    create-element call (with an id that parses to [n]) and the close have
    returned and the point has a title, create derives a feature from the
    created node carrying the id [n], under the title: with no feature derived
    it returns without a call to the index, and this is not an error;
    otherwise it upserts that feature, and the outcome of the upsert is the
    outcome of create. *)
Theorem AddPointOfInterest_indexes_the_created_node
    World (this : OsmPointsOfInterestAdapter World) poi tok lang w cs w1 id w2 n w3 name :
  let osmGateway := CreateOsmGateway (_httpGatewayFactory this) tok in
  let comment := lit "Add POI interface from IHM site." in
  let node := created_node this poi lang in
  let committed :=
    [ok (OsmCreateChangeset comment); ok (OsmCreateElement cs node);
     ok (OsmCloseChangeset cs)] in
  CreateChangeset osmGateway comment w = (Ok cs, w1) ->
  CreateElement osmGateway cs node w1 = (Ok id, w2) ->
  long_Parse id = Ok n ->
  CloseChangeset osmGateway cs w2 = (Ok tt, w3) ->
  PointOfInterestExtended.Title poi = Some name ->
  run (AddPointOfInterest this poi tok lang) w =
  match derived_feature this (CompleteOsmGeo.with_Id node n) name with
  | None => (Ok tt, mkSt w3 committed)
  | Some feature =>
      let (r, w4) := UpdateNamesData (_elasticSearchGateway this) feature w3 in
      (r, mkSt w4 (committed ++ [mkEvent (EsUpdateNamesData feature) (outcome r)]))
  end.
Proof.
  intros osmGateway comment node committed Hopen Hcreate Hparse Hclose Htitle.
  rewrite AddPointOfInterest_run. cbv zeta. fold osmGateway comment node.
  given Hopen. given Hcreate. given Hparse. given Hclose.
  rewrite UpdateElasticSearch_run, Htitle. reflexivity.
Qed.

Lemma AddPointOfInterest_indexes_the_created_node_witness :
  run (AddPointOfInterest silent_adapter kinneret_poi some_token en) 0
  = (Ok tt,
     mkSt 0 [ok (OsmCreateChangeset (lit "Add POI interface from IHM site."));
             ok (OsmCreateElement (lit "7") (created_node silent_adapter kinneret_poi en));
             ok (OsmCloseChangeset (lit "7"))]) /\
  map call (skipn 3 (log (snd (run (AddPointOfInterest he_adapter kinneret_poi
                                      some_token en) 0))))
  = [EsUpdateNamesData (Feature.make Point [])].
Proof.
  split.
  - rewrite (@AddPointOfInterest_indexes_the_created_node nat silent_adapter kinneret_poi
               some_token en 0 (lit "7") 1 (lit "42") 1 42%Z 0 kinneret
               eq_refl eq_refl eq_refl eq_refl eq_refl).
    reflexivity.
  - rewrite (@AddPointOfInterest_indexes_the_created_node nat he_adapter kinneret_poi
               some_token en 0 (lit "7") 1 (lit "42") 1 42%Z 0 kinneret
               eq_refl eq_refl eq_refl eq_refl eq_refl).
    reflexivity.
Defined.

(** X12: a point without a title.  With a null title neither create nor
    update ever writes the search index, and neither returns normally; when
    the changeset was closed, so that the edit is committed, they end with
    [ArgumentNullException]. *)
Theorem null_title_is_never_indexed
    World (this : OsmPointsOfInterestAdapter World) poi tok lang w :
  PointOfInterestExtended.Title poi = None ->
  let never_indexed (outcome : Exc unit * St World) :=
    attempted is_upsert (log (snd outcome)) = false /\
    (exists e, fst outcome = Raise e) /\
    (succeeded is_close (log (snd outcome)) = true ->
     fst outcome = Raise ArgumentNullException) in
  never_indexed (run (AddPointOfInterest this poi tok lang) w) /\
  never_indexed (run (UpdatePointOfInterest this poi tok lang) w).
Proof.
  intros Htitle. cbv zeta beta. split.
  - rewrite AddPointOfInterest_run. cbv zeta.
    run_paths; try congruence; cbn [fst snd log];
      (split; [reflexivity|]); (split; [eauto|]);
      intros H; try discriminate H; reflexivity.
  - rewrite UpdatePointOfInterest_run. cbv zeta.
    run_paths; try congruence; cbn [fst snd log];
      try match goal with
          | f : Feature.t |- _ => destruct (Feature.Geometry_ f)
          end;
      (split; [reflexivity|]); (split; [eauto|]);
      intros H; try discriminate H; reflexivity.
Qed.

Lemma null_title_is_never_indexed_witness :
  let outcome := run (AddPointOfInterest he_adapter untitled_poi some_token en) 0 in
  fst outcome = Raise ArgumentNullException /\
  kinds (log (snd outcome)) = [Open; Mutate; Close].
Proof.
  cbv zeta. split; [|reflexivity].
  apply (proj1 (@null_title_is_never_indexed nat he_adapter untitled_poi some_token en 0
                  eq_refl)).
  reflexivity.
Defined.

(** X13: the fetch of update goes by the geometry of the feature found in
    the index.  After a lookup that returned, the second call of update is
    the fetch of a node for a point, of a complete way for a line or a
    polygon, and of a complete relation for any other geometry; update makes
    no other fetch. *)
Theorem UpdatePointOfInterest_fetches_by_geometry
    World (this : OsmPointsOfInterestAdapter World) poi tok lang w feature w1 :
  let id := PointOfInterestExtended.Id poi in
  GetPointOfInterestById (_elasticSearchGateway this) id Sources.OSM w
  = (Ok feature, w1) ->
  let events := log (snd (run (UpdatePointOfInterest this poi tok lang) w)) in
  let chosen :=
    match Feature.Geometry_ feature with
    | Point => OsmGetNode id
    | LineString | Polygon => OsmGetCompleteWay id
    | OtherGeometry => OsmGetCompleteRelation id
    end in
  nth_error (map call events) 1 = Some chosen /\
  forall ev, In ev events -> kind_of (call ev) = Fetch -> call ev = chosen.
Proof.
  intros id Hlookup events chosen. unfold events.
  change chosen with (fetch_call (Feature.Geometry_ feature) id).
  rewrite UpdatePointOfInterest_run. cbv zeta. fold id. given Hlookup.
  run_paths; cbn [snd log app]; (split; [reflexivity|]);
    intros ev Hin Hkind; in_log; try reflexivity; discriminate Hkind.
Qed.

Lemma UpdatePointOfInterest_fetches_by_geometry_witness :
  let events :=
    log (snd (run (UpdatePointOfInterest
                     (scripted_adapter no_faults meron_node
                        (Feature.make Polygon [(FeatureAttributes.ICON, lit "icon-peak")])
                        he)
                     peak_poi some_token en) 0)) in
  nth_error (map call events) 1 = Some (OsmGetCompleteWay (Some (lit "42"))) /\
  existsb (fun ev => match call ev with OsmGetNode _ => true | _ => false end) events
  = false.
Proof.
  cbv zeta. split; [|reflexivity].
  apply (@UpdatePointOfInterest_fetches_by_geometry nat
           (scripted_adapter no_faults meron_node
              (Feature.make Polygon [(FeatureAttributes.ICON, lit "icon-peak")]) he)
           peak_poi some_token en 0
           (Feature.make Polygon [(FeatureAttributes.ICON, lit "icon-peak")]) 0 eq_refl).
Defined.

(** * The tags of an update *)

Section UpdatedTags.

Variable World : Type.
Variable this : OsmPointsOfInterestAdapter World.

(** The four writes of update, then the test of the stored icon. *)
Lemma UpdatePointOfInterest_tags_cases poi lang tags :
  let default := DefaultLanguage (_options this) in
  let icon := PointOfInterestExtended.Icon poi in
  exists t1 t2 t3 t4,
    SetTagByLanguage default FeatureAttributes.NAME
      (PointOfInterestExtended.Description poi) lang tags = (Ok tt, t1) /\
    SetTagByLanguage default FeatureAttributes.DESCRIPTION
      (PointOfInterestExtended.Description poi) lang t1 = (Ok tt, t2) /\
    SetItem FeatureAttributes.IMAGE_URL (PointOfInterestExtended.ImageUrl poi) t2
    = (Ok tt, t3) /\
    SetItem FeatureAttributes.WEBSITE (PointOfInterestExtended.Url poi) t3
    = (Ok tt, t4) /\
    (unique_keys tags -> unique_keys t4) /\
    forall feature,
      UpdatePointOfInterest_tags this poi feature lang tags =
      match attribute (Feature.Attributes feature) FeatureAttributes.ICON with
      | Raise e => (Raise e, t4)
      | Ok stored =>
          bind (if negb (cstring_eqb icon (Some stored))
                then UpdateTagsByIcon icon else ret tt)
               (fun _ => RemoveEmptyTags) t4
      end.
Proof.
  intros default icon.
  destruct (SetTagByLanguage default FeatureAttributes.NAME
              (PointOfInterestExtended.Description poi) lang tags) as [r1 t1] eqn:E1.
  pose proof (SetTagByLanguage_Ok default FeatureAttributes.NAME
                (PointOfInterestExtended.Description poi) lang tags) as O1.
  rewrite E1 in O1. simpl in O1. subst r1.
  destruct (SetTagByLanguage default FeatureAttributes.DESCRIPTION
              (PointOfInterestExtended.Description poi) lang t1) as [r2 t2] eqn:E2.
  pose proof (SetTagByLanguage_Ok default FeatureAttributes.DESCRIPTION
                (PointOfInterestExtended.Description poi) lang t1) as O2.
  rewrite E2 in O2. simpl in O2. subst r2.
  destruct (SetItem FeatureAttributes.IMAGE_URL
              (PointOfInterestExtended.ImageUrl poi) t2) as [r3 t3] eqn:E3.
  pose proof (SetItem_Ok FeatureAttributes.IMAGE_URL
                (PointOfInterestExtended.ImageUrl poi) t2) as O3.
  rewrite E3 in O3. simpl in O3. subst r3.
  destruct (SetItem FeatureAttributes.WEBSITE
              (PointOfInterestExtended.Url poi) t3) as [r4 t4] eqn:E4.
  pose proof (SetItem_Ok FeatureAttributes.WEBSITE
                (PointOfInterestExtended.Url poi) t3) as O4.
  rewrite E4 in O4. simpl in O4. subst r4.
  exists t1, t2, t3, t4.
  do 4 (split; [assumption || reflexivity|]). split.
  - intros Hu.
    eapply SetItem_unique_keys; [exact E4|].
    eapply SetItem_unique_keys; [exact E3|].
    eapply SetTagByLanguage_unique_keys; [exact E2|].
    eapply SetTagByLanguage_unique_keys; [exact E1|exact Hu].
  - intros feature. unfold UpdatePointOfInterest_tags. fold default icon.
    unfold bind at 1. rewrite E1. unfold bind at 1. rewrite E2.
    unfold bind at 1. rewrite E3. unfold bind at 1. rewrite E4.
    unfold bind at 1, lift.
    now destruct (attribute (Feature.Attributes feature) FeatureAttributes.ICON).
Qed.

(** X14: when the tags of an update cannot be prepared.  On a fetched tag
    set with one entry per key the tag statements of update throw in two cases
    only: the feature of the index has no icon attribute, or the icon of the
    point differs from the stored one and the key of its category is already
    in the fetched tags ([ArgumentException]).  Update then ends with that
    exception after the fetch: no changeset is opened. *)
Theorem UpdatePointOfInterest_tagging_failures
    poi tok lang w feature w1 fetched w2 e :
  let osmGateway := CreateOsmGateway (_httpGatewayFactory this) tok in
  let id := PointOfInterestExtended.Id poi in
  let icon := PointOfInterestExtended.Icon poi in
  let stored_icon := attribute (Feature.Attributes feature) FeatureAttributes.ICON in
  let tagging :=
    UpdatePointOfInterest_tags this poi feature lang (CompleteOsmGeo.Tags fetched) in
  GetPointOfInterestById (_elasticSearchGateway this) id Sources.OSM w
  = (Ok feature, w1) ->
  fetch_operation osmGateway (Feature.Geometry_ feature) id w1 = (Ok fetched, w2) ->
  unique_keys (CompleteOsmGeo.Tags fetched) ->
  (fst tagging = Raise e <->
   stored_icon = Raise e \/
   exists stored key value,
     stored_icon = Ok stored /\ icon <> Some stored /\
     icon_case icon = Some (key, value) /\
     GetValue (CompleteOsmGeo.Tags fetched) key <> None /\
     e = ArgumentException) /\
  (fst tagging = Raise e ->
   run (UpdatePointOfInterest this poi tok lang) w
   = (Raise e,
      mkSt w2 [ok (EsGetPointOfInterestById id Sources.OSM);
               ok (fetch_call (Feature.Geometry_ feature) id)])).
Proof.
  intros osmGateway id icon stored_icon tagging Hlookup Hfetch Hu. split.
  - destruct (UpdatePointOfInterest_tags_cases poi lang (CompleteOsmGeo.Tags fetched))
      as (t1 & t2 & t3 & t4 & E1 & E2 & E3 & E4 & Hu4 & Hcases).
    specialize (Hu4 Hu). unfold tagging. rewrite Hcases. fold stored_icon icon.
    assert (Hframe : forall k, category_key k ->
                               GetValue t4 k = GetValue (CompleteOsmGeo.Tags fetched) k).
    { intros k Hk.
      apply category_key_apart in Hk as (N1 & N2 & N3 & N4 & N5 & N6).
      rewrite (SetItem_frame _ _ _ _ E4 N4), (SetItem_frame _ _ _ _ E3 N3).
      rewrite (SetTagByLanguage_frame _ _ _ _ _ _ E2 N2 N6).
      apply (SetTagByLanguage_frame _ _ _ _ _ _ E1 N1 N5). }
    destruct stored_icon as [stored|e'].
    + destruct (cstring_eqb_spec icon (Some stored)) as [Heq|Hne]; simpl negb; cbv iota.
      * unfold bind, ret. rewrite RemoveEmptyTags_filter by exact Hu4. simpl.
        split; [discriminate|].
        intros [H|(s' & key & value & [= <-] & Hd & _)]; [discriminate | contradiction].
      * unfold UpdateTagsByIcon.
        destruct (icon_case icon) as [[key value]|] eqn:Ecase.
        -- pose proof (proj1 (icon_case_category _ Ecase)) as Hk.
           unfold bind, Add. destruct (ContainsKey t4 key) eqn:Hc; simpl.
           ++ split.
              ** intros [= <-]. right. exists stored, key, value.
                 repeat split; auto.
                 rewrite <- (Hframe key Hk). intros Hnone.
                 apply GetValue_ContainsKey in Hnone. congruence.
              ** intros [H|(s' & k' & v' & _ & _ & _ & _ & ->)];
                   [discriminate | reflexivity].
           ++ rewrite RemoveEmptyTags_filter
                by (apply unique_keys_snoc; assumption).
              simpl. split; [discriminate|].
              intros [H|(s' & k' & v' & _ & _ & [= <- <-] & Hheld & _)];
                [discriminate|].
              rewrite <- (Hframe key Hk) in Hheld.
              apply GetValue_ContainsKey in Hc. contradiction.
        -- unfold bind, ret. rewrite RemoveEmptyTags_filter by exact Hu4. simpl.
           split; [discriminate|].
           intros [H|(s' & k' & v' & _ & _ & H & _)]; discriminate.
    + simpl. split.
      * intros [= <-]. now left.
      * intros [[= <-]|(s' & k' & v' & H & _)]; [reflexivity | discriminate].
  - intros Hfail. rewrite UpdatePointOfInterest_run. cbv zeta.
    fold osmGateway id. given Hlookup. given Hfetch.
    fold tagging. destruct tagging as [[[]|e'] tags]; simpl in Hfail; [discriminate|].
    now injection Hfail as ->.
Qed.

End UpdatedTags.

Lemma UpdatePointOfInterest_tagging_failures_witness :
  run (UpdatePointOfInterest (scripted_adapter no_faults tree_node tree_feature he)
         peak_poi some_token en) 0
  = (Raise ArgumentException,
     mkSt 0 [ok (EsGetPointOfInterestById (Some (lit "42")) Sources.OSM);
             ok (OsmGetNode (Some (lit "42")))]).
Proof.
  assert (Hu : unique_keys (CompleteOsmGeo.Tags tree_node)).
  { unfold unique_keys. simpl. repeat constructor. simpl. tauto. }
  destruct (@UpdatePointOfInterest_tagging_failures nat
              (scripted_adapter no_faults tree_node tree_feature he)
              peak_poi some_token en 0 tree_feature 0 tree_node 0 ArgumentException
              eq_refl eq_refl Hu) as [Hiff Hrun].
  apply Hrun. apply Hiff. right.
  exists (lit "icon-tree"), (lit "natural"), (lit "peak").
  repeat split; discriminate.
Defined.

(** * The tags of a created node, key by key *)

Section CreatedTags.

Variable World : Type.
Variable this : OsmPointsOfInterestAdapter World.

Lemma created_tags_lookup poi lang k :
  GetValue (created_tags this poi lang) k
  = stripped (written_by_create (DefaultLanguage (_options this)) poi lang k).
Proof.
  destruct (AddPointOfInterest_tags_steps this poi lang)
    as (t2 & t3 & t4 & E2 & E3 & E4 & Hu4 & Etags).
  unfold created_tags. rewrite Etags. cbn [snd].
  rewrite GetValue_filter by exact Hu4. f_equal.
  set (default := DefaultLanguage (_options this)) in *.
  set (t1 := [mkTag FeatureAttributes.IMAGE_URL (PointOfInterestExtended.ImageUrl poi);
              mkTag FeatureAttributes.WEBSITE (PointOfInterestExtended.Url poi)]) in *.
  pose proof (SetTagByLanguage_lookup _ _ _ _ _ E2) as L2.
  pose proof (SetTagByLanguage_lookup _ _ _ _ _ E3) as L3.
  cbv zeta in L2, L3.
  change (ContainsKey t1 FeatureAttributes.NAME) with false in L2.
  assert (Hfree : ContainsKey t2 FeatureAttributes.DESCRIPTION = false).
  { apply GetValue_ContainsKey. rewrite L2.
    change (str_eqb (FeatureAttributes.NAME ++ lit ":" ++
                     or_empty (GetLanguage (PointOfInterestExtended.Title poi) lang))
                    FeatureAttributes.DESCRIPTION) with false.
    now destruct (cstring_eqb _ default). }
  rewrite Hfree in L3.
  rewrite (UpdateTagsByIcon_lookup _ _ E4).
  unfold written_by_create, qualified_key. fold default.
  assert (Htexts : GetValue t3 k =
    (if str_eqb (FeatureAttributes.DESCRIPTION ++ lit ":" ++
                 or_empty (GetLanguage (PointOfInterestExtended.Description poi) lang)) k
     then Some (PointOfInterestExtended.Description poi)
     else if cstring_eqb (GetLanguage (PointOfInterestExtended.Description poi) lang)
                         default && str_eqb FeatureAttributes.DESCRIPTION k
          then Some (PointOfInterestExtended.Description poi)
          else
            if str_eqb (FeatureAttributes.NAME ++ lit ":" ++
                        or_empty (GetLanguage (PointOfInterestExtended.Title poi) lang)) k
            then Some (PointOfInterestExtended.Title poi)
            else if cstring_eqb (GetLanguage (PointOfInterestExtended.Title poi) lang)
                                default && str_eqb FeatureAttributes.NAME k
                 then Some (PointOfInterestExtended.Title poi)
                 else if str_eqb FeatureAttributes.IMAGE_URL k
                      then Some (PointOfInterestExtended.ImageUrl poi)
                      else if str_eqb FeatureAttributes.WEBSITE k
                           then Some (PointOfInterestExtended.Url poi)
                           else None)).
  { rewrite L3, L2. unfold t1. cbn [GetValue Key Value].
    destruct (cstring_eqb (GetLanguage (PointOfInterestExtended.Description poi) lang)
                          default),
             (cstring_eqb (GetLanguage (PointOfInterestExtended.Title poi) lang) default);
      cbn [andb]; reflexivity. }
  rewrite Htexts. reflexivity.
Qed.

(** X15: where create writes the title and the description.  Each text goes
    under the key qualified by its detected language ([name:he],
    [description:en], ...), and under the base key as well exactly when that
    language is the default one; a blank text leaves no tag. *)
Theorem create_writes_texts_by_language poi lang :
  let default := DefaultLanguage (_options this) in
  let tags := created_tags this poi lang in
  let title := PointOfInterestExtended.Title poi in
  let description := PointOfInterestExtended.Description poi in
  GetValue tags (qualified_key FeatureAttributes.NAME title lang)
  = stripped (Some title) /\
  GetValue tags FeatureAttributes.NAME
  = (if cstring_eqb (GetLanguage title lang) default then stripped (Some title) else None) /\
  GetValue tags (qualified_key FeatureAttributes.DESCRIPTION description lang)
  = stripped (Some description) /\
  GetValue tags FeatureAttributes.DESCRIPTION
  = (if cstring_eqb (GetLanguage description lang) default
     then stripped (Some description) else None).
Proof.
  intros default tags title description. unfold tags.
  rewrite !created_tags_lookup. unfold written_by_create. fold default title description.
  unfold qualified_key.
  set (tl := or_empty (GetLanguage title lang)).
  set (dl := or_empty (GetLanguage description lang)).
  assert (Hicon : forall k (below : option cstring),
    (k = FeatureAttributes.NAME \/ k = FeatureAttributes.DESCRIPTION \/
     k = FeatureAttributes.NAME ++ lit ":" ++ tl \/
     k = FeatureAttributes.DESCRIPTION ++ lit ":" ++ dl) ->
    match icon_case (PointOfInterestExtended.Icon poi) with
    | Some (key, v) => if str_eqb key k then Some (Some v) else below
    | None => below
    end = below).
  { intros k below Hk.
    destruct (icon_case (PointOfInterestExtended.Icon poi)) as [[key v]|] eqn:Ei;
      [|reflexivity].
    apply icon_case_category in Ei as [[ -> | [ -> | -> ] ] _];
      destruct Hk as [ -> | [ -> | [ -> | -> ] ] ]; reflexivity. }
  assert (Hn : str_eqb (FeatureAttributes.NAME ++ lit ":" ++ tl) FeatureAttributes.NAME
               = false) by (apply str_eqb_neq, qualified_key_longer).
  assert (Hd : str_eqb (FeatureAttributes.DESCRIPTION ++ lit ":" ++ dl)
                       FeatureAttributes.DESCRIPTION = false)
    by (apply str_eqb_neq, qualified_key_longer).
  repeat split.
  - rewrite (Hicon _ _ (or_intror (or_intror (or_introl eq_refl)))).
    change (str_eqb (FeatureAttributes.DESCRIPTION ++ lit ":" ++ dl)
                    (FeatureAttributes.NAME ++ lit ":" ++ tl)) with false.
    change (str_eqb FeatureAttributes.DESCRIPTION
                    (FeatureAttributes.NAME ++ lit ":" ++ tl)) with false.
    rewrite andb_false_r, str_eqb_refl. reflexivity.
  - rewrite (Hicon _ _ (or_introl eq_refl)).
    change (str_eqb (FeatureAttributes.DESCRIPTION ++ lit ":" ++ dl)
                    FeatureAttributes.NAME) with false.
    change (str_eqb FeatureAttributes.DESCRIPTION FeatureAttributes.NAME) with false.
    rewrite andb_false_r, Hn.
    change (str_eqb FeatureAttributes.NAME FeatureAttributes.NAME) with true.
    rewrite andb_true_r.
    now destruct (cstring_eqb (GetLanguage title lang) default).
  - rewrite (Hicon _ _ (or_intror (or_intror (or_intror eq_refl)))).
    now rewrite str_eqb_refl.
  - rewrite (Hicon _ _ (or_intror (or_introl eq_refl))).
    rewrite Hd.
    change (str_eqb FeatureAttributes.DESCRIPTION FeatureAttributes.DESCRIPTION)
      with true.
    rewrite andb_true_r.
    change (str_eqb (FeatureAttributes.NAME ++ lit ":" ++ tl)
                    FeatureAttributes.DESCRIPTION) with false.
    change (str_eqb FeatureAttributes.NAME FeatureAttributes.DESCRIPTION) with false.
    rewrite andb_false_r.
    now destruct (cstring_eqb (GetLanguage description lang) default).
Qed.

(** X16: the other tags of a created node.  The image and the website are
    the image URL and the URL of the point, when these are not blank; of the
    keys of the icon vocabulary the node holds the one of the point's icon,
    with its value, and no other. *)
Theorem create_writes_links_and_icon poi lang :
  let tags := created_tags this poi lang in
  GetValue tags FeatureAttributes.IMAGE_URL
  = stripped (Some (PointOfInterestExtended.ImageUrl poi)) /\
  GetValue tags FeatureAttributes.WEBSITE
  = stripped (Some (PointOfInterestExtended.Url poi)) /\
  forall k,
    category_key k ->
    GetValue tags k =
    match icon_case (PointOfInterestExtended.Icon poi) with
    | Some (key, value) => if str_eqb key k then Some (Some value) else None
    | None => None
    end.
Proof.
  intros tags. unfold tags. rewrite !created_tags_lookup.
  unfold written_by_create, qualified_key.
  split; [|split].
  - destruct (icon_case (PointOfInterestExtended.Icon poi)) as [[key value]|] eqn:Ei.
    + apply icon_case_category in Ei as [[ -> | [ -> | -> ] ] _];
        cbn; now rewrite !andb_false_r.
    + cbn. now rewrite !andb_false_r.
  - destruct (icon_case (PointOfInterestExtended.Icon poi)) as [[key value]|] eqn:Ei.
    + apply icon_case_category in Ei as [[ -> | [ -> | -> ] ] _];
        cbn; now rewrite !andb_false_r.
    + cbn. now rewrite !andb_false_r.
  - intros k Hk. rewrite created_tags_lookup.
    unfold written_by_create, qualified_key.
    pose proof (category_key_apart Hk) as (N1 & N2 & N3 & N4 & N5 & N6).
    rewrite N1, N2, N3, N4, N5, N6, !andb_false_r.
    destruct (icon_case (PointOfInterestExtended.Icon poi)) as [[key value]|] eqn:Ei;
      [|reflexivity].
    destruct (str_eqb key k); [|reflexivity].
    apply icon_case_category in Ei as [_ Hv]. simpl in *. now rewrite Hv.
Qed.

(** X17: a created node holds no other tag: every key of its tag set is the
    image or the website key, the base or the language-qualified key of the
    title or of the description, or the key of the point's icon. *)
Theorem create_writes_no_other_key poi lang k :
  GetValue (created_tags this poi lang) k <> None ->
  In k [FeatureAttributes.IMAGE_URL; FeatureAttributes.WEBSITE;
        FeatureAttributes.NAME;
        qualified_key FeatureAttributes.NAME (PointOfInterestExtended.Title poi) lang;
        FeatureAttributes.DESCRIPTION;
        qualified_key FeatureAttributes.DESCRIPTION
                      (PointOfInterestExtended.Description poi) lang] \/
  exists value, icon_case (PointOfInterestExtended.Icon poi) = Some (k, value).
Proof.
  rewrite created_tags_lookup. unfold written_by_create.
  intros H.
  assert (Hicon :
    (exists value, icon_case (PointOfInterestExtended.Icon poi) = Some (k, value)) \/
    match icon_case (PointOfInterestExtended.Icon poi) with
    | Some (key, _) => str_eqb key k = false
    | None => True
    end).
  { destruct (icon_case (PointOfInterestExtended.Icon poi)) as [[key value]|];
      [|now right].
    destruct (str_eqb_spec key k) as [ -> |_]; [left; eauto | now right]. }
  destruct Hicon as [Hicon|Hicon]; [now right|]. left.
  assert (Htexts : stripped
    (let text key value below :=
       if str_eqb (qualified_key key value lang) k then Some value
       else if cstring_eqb (GetLanguage value lang) (DefaultLanguage (_options this))
               && str_eqb key k
            then Some value else below in
     text FeatureAttributes.DESCRIPTION (PointOfInterestExtended.Description poi)
       (text FeatureAttributes.NAME (PointOfInterestExtended.Title poi)
          (if str_eqb FeatureAttributes.IMAGE_URL k
           then Some (PointOfInterestExtended.ImageUrl poi)
           else if str_eqb FeatureAttributes.WEBSITE k
                then Some (PointOfInterestExtended.Url poi) else None))) <> None).
  { destruct (icon_case (PointOfInterestExtended.Icon poi)) as [[key value]|];
      [rewrite Hicon in H|]; exact H. }
  clear H Hicon. cbv zeta beta in Htexts. cbn [In].
  destruct (str_eqb_spec (qualified_key FeatureAttributes.DESCRIPTION
                            (PointOfInterestExtended.Description poi) lang) k);
    [tauto|].
  destruct (str_eqb_spec FeatureAttributes.DESCRIPTION k); [tauto|].
  rewrite andb_false_r in Htexts.
  destruct (str_eqb_spec (qualified_key FeatureAttributes.NAME
                            (PointOfInterestExtended.Title poi) lang) k);
    [tauto|].
  destruct (str_eqb_spec FeatureAttributes.NAME k); [tauto|].
  rewrite andb_false_r in Htexts.
  destruct (str_eqb_spec FeatureAttributes.IMAGE_URL k); [tauto|].
  destruct (str_eqb_spec FeatureAttributes.WEBSITE k); [tauto|].
  now contradiction Htexts.
Qed.

End CreatedTags.

Lemma create_writes_links_and_icon_witness :
  GetValue (created_tags he_adapter peak_poi en) (lit "natural")
  = Some (Some (lit "peak")) /\
  GetValue (created_tags he_adapter peak_poi en) (lit "tourism") = None.
Proof.
  split.
  - rewrite (proj2 (proj2 (create_writes_links_and_icon he_adapter peak_poi en))
               (lit "natural")); [reflexivity|].
    right; left; reflexivity.
  - rewrite (proj2 (proj2 (create_writes_links_and_icon he_adapter peak_poi en))
               (lit "tourism")); [reflexivity|].
    left; reflexivity.
Defined.

Lemma create_writes_no_other_key_witness :
  In (lit "name:he")
     [FeatureAttributes.IMAGE_URL; FeatureAttributes.WEBSITE; FeatureAttributes.NAME;
      qualified_key FeatureAttributes.NAME (Some kinneret) en;
      FeatureAttributes.DESCRIPTION;
      qualified_key FeatureAttributes.DESCRIPTION None en] \/
  exists value, icon_case None = Some (lit "name:he", value).
Proof.
  apply (@create_writes_no_other_key nat he_adapter kinneret_poi en (lit "name:he")).
  vm_compute. discriminate.
Defined.

(** * What an update changes *)

Section UpdatedElement.

Variable World : Type.
Variable this : OsmPointsOfInterestAdapter World.

(** X18: update changes nothing but the tags: the element handed to the
    gateway has the type, the id and the coordinates of the element that the
    gateway returned for the fetch. *)
Theorem UpdatePointOfInterest_changes_tags_only
    poi tok lang w feature w1 fetched w2 :
  let osmGateway := CreateOsmGateway (_httpGatewayFactory this) tok in
  let id := PointOfInterestExtended.Id poi in
  GetPointOfInterestById (_elasticSearchGateway this) id Sources.OSM w
  = (Ok feature, w1) ->
  fetch_operation osmGateway (Feature.Geometry_ feature) id w1 = (Ok fetched, w2) ->
  forall ev element,
    In ev (log (snd (run (UpdatePointOfInterest this poi tok lang) w))) ->
    mutated_element (call ev) = Some element ->
    CompleteOsmGeo.Type_ element = CompleteOsmGeo.Type_ fetched /\
    CompleteOsmGeo.Id element = CompleteOsmGeo.Id fetched /\
    CompleteOsmGeo.Latitude element = CompleteOsmGeo.Latitude fetched /\
    CompleteOsmGeo.Longitude element = CompleteOsmGeo.Longitude fetched.
Proof.
  intros osmGateway id Hlookup Hfetch ev element.
  rewrite UpdatePointOfInterest_run. cbv zeta. fold osmGateway id.
  given Hlookup. given Hfetch.
  run_paths; cbn [snd log app]; intros Hin Hel; in_log;
    try (destruct (Feature.Geometry_ feature)); try discriminate Hel;
    injection Hel as <-; repeat split.
Qed.

(** X19: the tags that an update leaves alone.  When the tag statements of
    update return, on a fetched tag set with one entry per key, every key
    that is not the image or the website key, a base or language-qualified
    name or description key, or the key of the point's icon, holds what it held
    before, unless that was blank. *)
Theorem UpdatePointOfInterest_leaves_other_tags poi feature lang tags tags' k :
  unique_keys tags ->
  UpdatePointOfInterest_tags this poi feature lang tags = (Ok tt, tags') ->
  ~ written_key (PointOfInterestExtended.Icon poi) k ->
  GetValue tags' k = stripped (GetValue tags k).
Proof.
  intros Hu Htags Hk.
  destruct (UpdatePointOfInterest_tags_steps _ _ _ _ Hu Htags)
    as (t1 & t2 & t3 & t4 & stored & t5 & E1 & E2 & E3 & E4 & _ & E5 & Hu5 & ->).
  cbv zeta in E1, E2, E3, E4, E5.
  rewrite GetValue_filter by exact Hu5. f_equal.
  unfold written_key in Hk.
  assert (N1 : str_eqb FeatureAttributes.NAME k = false)
    by (apply str_eqb_neq; intros H; apply Hk; auto).
  assert (N2 : str_eqb FeatureAttributes.DESCRIPTION k = false)
    by (apply str_eqb_neq; intros H; apply Hk; auto).
  assert (N3 : str_eqb FeatureAttributes.IMAGE_URL k = false)
    by (apply str_eqb_neq; intros H; apply Hk; auto).
  assert (N4 : str_eqb FeatureAttributes.WEBSITE k = false)
    by (apply str_eqb_neq; intros H; apply Hk; auto 6).
  assert (N5 : forall suffix,
             str_eqb (FeatureAttributes.NAME ++ lit ":" ++ suffix) k = false).
  { intros suffix. apply str_eqb_neq. intros H. apply Hk.
    right; right; right; right; left. now exists suffix. }
  assert (N6 : forall suffix,
             str_eqb (FeatureAttributes.DESCRIPTION ++ lit ":" ++ suffix) k = false).
  { intros suffix. apply str_eqb_neq. intros H. apply Hk.
    right; right; right; right; right; left. now exists suffix. }
  assert (H5 : GetValue t5 k = GetValue t4 k).
  { destruct (cstring_eqb (PointOfInterestExtended.Icon poi) (Some stored));
      [now subst|].
    rewrite (UpdateTagsByIcon_lookup _ _ E5).
    destruct (icon_case (PointOfInterestExtended.Icon poi)) as [[key value]|] eqn:Ei;
      [|reflexivity].
    destruct (str_eqb_spec key k) as [ -> |_]; [|reflexivity].
    exfalso. apply Hk. do 6 right. now exists value. }
  rewrite H5.
  rewrite (SetItem_frame _ _ _ _ E4 N4), (SetItem_frame _ _ _ _ E3 N3).
  rewrite (SetTagByLanguage_frame _ _ _ _ _ _ E2 N2 N6).
  apply (SetTagByLanguage_frame _ _ _ _ _ _ E1 N1 N5).
Qed.

(** X20: update overwrites the image and the website.  When the tag
    statements of update return, on a fetched tag set with one entry per key,
    the image and the website tags are the image URL and the URL of the
    submitted point, whatever the fetched element held; a blank one leaves no
    tag. *)
Theorem UpdatePointOfInterest_overwrites_links poi feature lang tags tags' :
  unique_keys tags ->
  UpdatePointOfInterest_tags this poi feature lang tags = (Ok tt, tags') ->
  GetValue tags' FeatureAttributes.IMAGE_URL
  = stripped (Some (PointOfInterestExtended.ImageUrl poi)) /\
  GetValue tags' FeatureAttributes.WEBSITE
  = stripped (Some (PointOfInterestExtended.Url poi)).
Proof.
  intros Hu Htags.
  destruct (UpdatePointOfInterest_tags_steps _ _ _ _ Hu Htags)
    as (t1 & t2 & t3 & t4 & stored & t5 & E1 & E2 & E3 & E4 & _ & E5 & Hu5 & ->).
  cbv zeta in E1, E2, E3, E4, E5.
  rewrite !GetValue_filter by exact Hu5.
  assert (H5 : forall k,
             k = FeatureAttributes.IMAGE_URL \/ k = FeatureAttributes.WEBSITE ->
             GetValue t5 k = GetValue t4 k).
  { intros k Hk.
    destruct (cstring_eqb (PointOfInterestExtended.Icon poi) (Some stored));
      [now subst|].
    rewrite (UpdateTagsByIcon_lookup _ _ E5).
    destruct (icon_case (PointOfInterestExtended.Icon poi)) as [[key value]|] eqn:Ei;
      [|reflexivity].
    apply icon_case_category in Ei as [[ -> | [ -> | -> ] ] _];
      destruct Hk as [ -> | -> ]; reflexivity. }
  rewrite !H5 by auto.
  rewrite (SetItem_lookup _ _ _ E4 FeatureAttributes.IMAGE_URL).
  rewrite (SetItem_lookup _ _ _ E4 FeatureAttributes.WEBSITE).
  rewrite (SetItem_lookup _ _ _ E3 FeatureAttributes.IMAGE_URL).
  split; reflexivity.
Qed.

End UpdatedElement.

Lemma pictured_meron_unique_keys : unique_keys pictured_meron.
Proof.
  unfold unique_keys. simpl. repeat constructor; simpl; intuition discriminate.
Qed.

Lemma UpdatePointOfInterest_changes_tags_only_witness :
  forallb (fun ev => match mutated_element (call ev) with
                     | Some element =>
                         match CompleteOsmGeo.Id element with
                         | Some id => Z.eqb id 42
                         | None => false
                         end
                     | None => true
                     end)
          (log (snd (run (UpdatePointOfInterest he_adapter peak_poi some_token en) 0)))
  = true.
Proof.
  apply forallb_forall. intros ev Hin.
  destruct (mutated_element (call ev)) as [element|] eqn:E; [|reflexivity].
  destruct (@UpdatePointOfInterest_changes_tags_only nat he_adapter peak_poi some_token en
              0 plain_feature 0 empty_node 0 eq_refl eq_refl ev element Hin E)
    as (_ & Hid & _).
  rewrite Hid. reflexivity.
Defined.

Lemma UpdatePointOfInterest_leaves_other_tags_witness :
  exists tags',
    UpdatePointOfInterest_tags he_adapter peak_poi peak_feature en pictured_meron
    = (Ok tt, tags') /\
    GetValue tags' (lit "ele") = Some (Some (lit "1208")).
Proof.
  eexists. split; [reflexivity|].
  apply (@UpdatePointOfInterest_leaves_other_tags nat he_adapter peak_poi peak_feature en
           pictured_meron _ (lit "ele") pictured_meron_unique_keys eq_refl).
  intros [H|[H|[H|[H|[[s H]|[[s H]|[v H]]]]]]]; discriminate H.
Defined.

Lemma UpdatePointOfInterest_overwrites_links_witness :
  exists tags',
    UpdatePointOfInterest_tags he_adapter peak_poi peak_feature en pictured_meron
    = (Ok tt, tags') /\
    GetValue tags' (lit "image") = None.
Proof.
  eexists. split; [reflexivity|].
  apply (proj1 (@UpdatePointOfInterest_overwrites_links nat he_adapter peak_poi
                  peak_feature en pictured_meron _ pictured_meron_unique_keys eq_refl)).
Defined.

(** * The requested language, the key invariant and the indexed element *)

Lemma SetTagByLanguage_language default key value lang lang' :
  IsNullOrWhiteSpace value = false ->
  SetTagByLanguage default key value lang = SetTagByLanguage default key value lang'.
Proof.
  intros H. unfold SetTagByLanguage, GetLanguage. now rewrite H.
Qed.

Section Invariants.

Variable World : Type.
Variable this : OsmPointsOfInterestAdapter World.

Lemma created_tags_unique_keys poi lang : unique_keys (created_tags this poi lang).
Proof.
  destruct (AddPointOfInterest_tags_steps this poi lang)
    as (t2 & t3 & t4 & _ & _ & _ & Hu & E).
  unfold created_tags. rewrite E. now apply unique_keys_filter.
Qed.

(** X21: the language of the request counts for blank texts only.  With a
    title and a description that are not blank, create makes the same calls
    with the same arguments and ends the same way whatever language is
    requested; for update this holds as soon as the description is not
    blank. *)
Theorem requested_language_counts_for_blank_texts_only poi tok lang lang' w :
  (IsNullOrWhiteSpace (PointOfInterestExtended.Title poi) = false ->
   IsNullOrWhiteSpace (PointOfInterestExtended.Description poi) = false ->
   run (AddPointOfInterest this poi tok lang) w
   = run (AddPointOfInterest this poi tok lang') w) /\
  (IsNullOrWhiteSpace (PointOfInterestExtended.Description poi) = false ->
   run (UpdatePointOfInterest this poi tok lang) w
   = run (UpdatePointOfInterest this poi tok lang') w).
Proof.
  split.
  - intros Ht Hd.
    unfold run, AddPointOfInterest, AddPointOfInterest_tags.
    now rewrite (SetTagByLanguage_language _ _ _ lang lang' Ht),
                (SetTagByLanguage_language _ _ _ lang lang' Hd).
  - intros Hd.
    unfold run, UpdatePointOfInterest, UpdatePointOfInterest_tags.
    now rewrite !(SetTagByLanguage_language _ _ _ lang lang' Hd).
Qed.

(** X22: one entry per key, all the way to OSM.  The tag set of every
    element that create hands to the gateway has one entry per key; so has the
    tag set of every element that update hands to it, when the sets that the
    gateway returns for a fetch have. *)
Theorem handed_tags_have_one_entry_per_key poi tok lang w :
  (forall ev element,
      In ev (log (snd (run (AddPointOfInterest this poi tok lang) w))) ->
      mutated_element (call ev) = Some element ->
      unique_keys (CompleteOsmGeo.Tags element)) /\
  (fetches_unique_keys (CreateOsmGateway (_httpGatewayFactory this) tok) ->
   forall ev element,
     In ev (log (snd (run (UpdatePointOfInterest this poi tok lang) w))) ->
     mutated_element (call ev) = Some element ->
     unique_keys (CompleteOsmGeo.Tags element)).
Proof.
  split.
  - intros ev element. rewrite AddPointOfInterest_run. cbv zeta.
    run_paths; cbn [snd log app]; intros Hin Hel; in_log;
      try discriminate Hel; injection Hel as <-; apply created_tags_unique_keys.
  - intros Hgw ev element. rewrite UpdatePointOfInterest_run. cbv zeta.
    run_paths; cbn [snd log app]; intros Hin Hel; in_log;
      try (destruct (Feature.Geometry_ feature)); try discriminate Hel;
      injection Hel as <-; cbn [CompleteOsmGeo.Tags CompleteOsmGeo.with_Tags];
      match goal with
      | Ef : fetch_operation _ _ _ _ = (Ok ?fetched, _),
        Et : UpdatePointOfInterest_tags _ _ _ _ _ = (Ok tt, _) |- _ =>
          apply Hgw in Ef;
          destruct (UpdatePointOfInterest_tags_steps _ _ _ _ Ef Et)
            as (? & ? & ? & ? & ? & t5 & _ & _ & _ & _ & _ & _ & Hu5 & ->);
          now apply unique_keys_filter
      end.
Qed.

(** X23: the index follows OSM.  A feature that update upserts is derived,
    under the title of the point, from the very element that an update-element
    call handed to OSM and that returned; a feature that create upserts is
    derived from the node that a create-element call handed to OSM, with an id
    set. *)
Theorem upserted_feature_comes_from_the_mutated_element poi tok lang w derived :
  (In (EsUpdateNamesData derived)
      (map call (log (snd (run (UpdatePointOfInterest this poi tok lang) w)))) ->
   exists cs element name,
     In (ok (OsmUpdateElement cs element))
        (log (snd (run (UpdatePointOfInterest this poi tok lang) w))) /\
     PointOfInterestExtended.Title poi = Some name /\
     derived_feature this element name = Some derived) /\
  (In (EsUpdateNamesData derived)
      (map call (log (snd (run (AddPointOfInterest this poi tok lang) w)))) ->
   exists cs node n name,
     In (ok (OsmCreateElement cs node))
        (log (snd (run (AddPointOfInterest this poi tok lang) w))) /\
     PointOfInterestExtended.Title poi = Some name /\
     derived_feature this (CompleteOsmGeo.with_Id node n) name = Some derived).
Proof.
  split.
  - rewrite UpdatePointOfInterest_run. cbv zeta.
    run_paths; cbn [snd log app map call ok ko]; intros Hin; in_log;
      try (destruct (Feature.Geometry_ feature)); try discriminate;
      match goal with
      | H : EsUpdateNamesData _ = EsUpdateNamesData _ |- _ => injection H as <-
      end;
      do 3 eexists; (split; [do 3 right; left; reflexivity|]);
      (split; [reflexivity | eassumption]).
  - rewrite AddPointOfInterest_run. cbv zeta.
    run_paths; cbn [snd log app map call ok ko]; intros Hin; in_log;
      try discriminate;
      match goal with
      | H : EsUpdateNamesData _ = EsUpdateNamesData _ |- _ => injection H as <-
      end;
      do 4 eexists; (split; [right; left; reflexivity|]);
      (split; [reflexivity | eassumption]).
Qed.

End Invariants.

Lemma requested_language_counts_for_blank_texts_only_witness :
  run (UpdatePointOfInterest he_adapter tabor_poi some_token he) 0
  = run (UpdatePointOfInterest he_adapter tabor_poi some_token en) 0.
Proof.
  apply (proj2 (@requested_language_counts_for_blank_texts_only nat he_adapter tabor_poi
                  some_token he en 0)).
  reflexivity.
Defined.

Lemma handed_tags_have_one_entry_per_key_witness :
  Forall unique_keys
         (handed_tags
            (log (snd (run (UpdatePointOfInterest he_adapter peak_poi some_token en) 0)))).
Proof.
  apply Forall_forall. intros tags Hin. unfold handed_tags in Hin.
  apply in_flat_map in Hin as (ev & Hev & Hin).
  destruct (mutated_element (call ev)) as [element|] eqn:E; [|destruct Hin].
  destruct Hin as [ <- |[]].
  apply (proj2 (@handed_tags_have_one_entry_per_key nat he_adapter peak_poi some_token
                  en 0)
               ltac:(apply scripted_osm_unique_keys; unfold unique_keys; simpl; constructor)
               ev element Hev E).
Defined.

Lemma upserted_feature_comes_from_the_mutated_element_witness :
  exists cs node n name,
    In (ok (OsmCreateElement cs node))
       (log (snd (run (AddPointOfInterest he_adapter kinneret_poi some_token en) 0))) /\
    PointOfInterestExtended.Title kinneret_poi = Some name /\
    derived_feature he_adapter (CompleteOsmGeo.with_Id node n) name
    = Some (Feature.make Point []).
Proof.
  apply (proj2 (@upserted_feature_comes_from_the_mutated_element nat he_adapter
                  kinneret_poi some_token en 0 (Feature.make Point []))).
  vm_compute. do 3 right. left. reflexivity.
Defined.
